(** * leakybucket: a size-limited leaky-bucket rate-limiting cache

    A shallow embedding of [leakybucket.go] and the properties of its decay
    model, admission test and garbage collector.

    Conventions of the embedding:
    - [int64] values are integers of [Z] with the two's-complement
      wrap-around of every arithmetic operation written out ([Int64.wrap]);
      Go's [int] is taken at its width on 64-bit platforms, so the same
      wrap-around applies to the [entries] counter and to [left];
    - the bucket table [map[uint64]entry] is a [gmap Z entry];
    - Go leaves the order of [range] over a map unspecified: every [range]
      statement takes the order it iterates in as an argument
      (a [range_order]), and [valid_order] says that this order enumerates
      the keys of the map, each once;
    - the clock reading [time.Now().UnixNano()] is an argument of [Put] and
      [PutString]; the mutex is a flag of the cache. *)

From stdpp Require Import gmap list fin_maps.
From Stdlib Require Import ZArith Lia String Ascii.

Local Open Scope Z_scope.

(** ** Machine integers *)

Module Int64.

Definition min_int : Z := - 2 ^ 63.
Definition max_int : Z := 2 ^ 63 - 1.

(** The value a 64-bit signed register holds after computing [z]. *)
Definition wrap (z : Z) : Z := (z + 2 ^ 63) mod 2 ^ 64 - 2 ^ 63.

Definition in_range (z : Z) : Prop := min_int <= z <= max_int.

End Int64.

Arguments Int64.wrap z : simpl never.

Module Uint64.

Definition wrap (z : Z) : Z := z mod 2 ^ 64.

End Uint64.

(** ** Constants *)

Definition DrainPerSecond : Z := 1000000000.
Definition gcScanEntries : Z := 1000.
Definition gcMustRemoveEntries : Z := 100.

(** ** Data model *)

Record entry : Type := Entry {
  tokens : Z;   (* one billion drained per second *)
  updated : Z   (* unix nanoseconds *)
}.

Record Cache : Type := MkCache {
  MaxEntries : Z;
  mu : bool;                (* true while the mutex is held *)
  cache : gmap Z entry;
  entries : Z
}.

Definition set_cache (m : gmap Z entry) (lb : Cache) : Cache :=
  MkCache (MaxEntries lb) (mu lb) m (entries lb).

Definition set_entries (n : Z) (lb : Cache) : Cache :=
  MkCache (MaxEntries lb) (mu lb) (cache lb) n.

Definition set_mu (b : bool) (lb : Cache) : Cache :=
  MkCache (MaxEntries lb) b (cache lb) (entries lb).

(** [New]: [None] stands for the nil cache. *)
Definition New (maxEntries : Z) : option Cache :=
  if maxEntries <=? 0 then None
  else Some (MkCache maxEntries false ∅ 0).

(** ** Entry decay: [update] *)

Definition update (e : entry) (now : Z) : entry :=
  let s := Int64.wrap (now - updated e) in
  let s := if s <? 0 then 0 else s in
  let t := Int64.wrap (tokens e - s) in
  let t := if t <? 0 then 0 else t in
  Entry t now.

(** ** Iteration over the table *)

Definition range_order : Type := gmap Z entry → list Z.

Definition valid_order (ord : range_order) : Prop :=
  ∀ m, NoDup (ord m) ∧ ∀ k, k ∈ ord m ↔ is_Some (m !! k).

(** The order of stdpp's own enumeration of the map. *)
Definition key_order : range_order := λ m, (map_to_list m).*1.

(** The three [range] statements one [gc] call executes. *)
Record gc_orders : Type := GcOrders {
  ord_scan1 : range_order;
  ord_scan2 : range_order;
  ord_forced : range_order
}.

Definition valid_orders (os : gc_orders) : Prop :=
  valid_order (ord_scan1 os) ∧ valid_order (ord_scan2 os) ∧
  valid_order (ord_forced os).

Definition key_orders : gc_orders := GcOrders key_order key_order key_order.

(** ** [scan] *)

(** [delete(lb.cache, k); lb.entries--] *)
Definition delete_key (k : Z) (lb : Cache) : Cache :=
  set_entries (Int64.wrap (entries lb - 1)) (set_cache (delete k (cache lb)) lb).

(** The body of the loop of [scan] for the key [k], up to the counter. *)
Definition scan_visit (now k : Z) (e : entry) (lb : Cache) : Cache :=
  let e := update e now in
  if tokens e <=? 0
  then delete_key k lb
  else set_cache (<[k := e]> (cache lb)) lb.

(** The loop of [scan] over the keys [ks] still to be produced, [n] being
    the number of keys visited so far. A key that is no longer in the map
    when its turn comes is not produced. *)
Fixpoint scan_range (now count : Z) (ks : list Z) (n : Z) (lb : Cache) : Cache :=
  match ks with
  | [] => lb
  | k :: ks' =>
      match cache lb !! k with
      | None => scan_range now count ks' n lb
      | Some e =>
          let lb := scan_visit now k e lb in
          let n := Int64.wrap (n + 1) in
          if n >=? count then lb else scan_range now count ks' n lb
      end
  end.

Definition scan (ord : range_order) (now count : Z) (lb : Cache) : Cache * Z :=
  let start := entries lb in
  let lb := scan_range now count (ord (cache lb)) 0 lb in
  (lb, Int64.wrap (entries lb - start)).

Arguments scan : simpl never.

(** ** [gc] *)

(** The forced-deletion loop of [gc]. *)
Fixpoint gc_forced (ks : list Z) (left : Z) (lb : Cache) : Cache :=
  match ks with
  | [] => lb
  | k :: ks' =>
      match cache lb !! k with
      | None => gc_forced ks' left lb
      | Some _ =>
          let lb := delete_key k lb in
          let left := Int64.wrap (left - 1) in
          if left <=? 0 then lb else gc_forced ks' left lb
      end
  end.

(** [left] when [gc] starts. *)
Definition gc_left0 (lb : Cache) : Z :=
  Int64.wrap (entries lb - Int64.wrap (MaxEntries lb - gcMustRemoveEntries)).

(** The first scan of [gc]: the cache and [left] after [left -= lb.scan(..)]. *)
Definition gc_phase1 (os : gc_orders) (now : Z) (lb : Cache) : Cache * Z :=
  let left := gc_left0 lb in
  let '(lb, r) := scan (ord_scan1 os) now gcScanEntries lb in
  (lb, Int64.wrap (left - r)).

(** The second scan, run when [left] is still positive. *)
Definition gc_phase2 (os : gc_orders) (now : Z) (lb : Cache) (left : Z) : Cache * Z :=
  let '(lb, r) := scan (ord_scan2 os) now gcScanEntries lb in
  (lb, Int64.wrap (left - r)).

Definition gc (os : gc_orders) (now : Z) (lb : Cache) : Cache :=
  let '(lb1, left1) := gc_phase1 os now lb in
  if left1 <=? 0 then lb1
  else
    let '(lb2, left2) := gc_phase2 os now lb1 left1 in
    if left2 <=? 0 then lb2
    else gc_forced (ord_forced os (cache lb2)) left2 lb2.

(** ** [put] *)

(** What [put] returns: tokens, exists, ok. *)
Definition put_result : Type := Z * bool * bool.

(** Lines 83-94 of [put]: look the bucket up, decay it, test and add the
    quantity, write the entry back. *)
Definition put_store (k quantity limit now : Z) (lb : Cache) : Cache * put_result :=
  let '(e, existed) :=
    match cache lb !! k with
    | Some e => (update e now, true)
    | None => (Entry 0 now, false)
    end in
  let ok := Int64.wrap (tokens e + quantity) <=? limit in
  let e := if ok then Entry (Int64.wrap (tokens e + quantity)) (updated e) else e in
  (set_cache (<[k := e]> (cache lb)) lb, (tokens e, existed, ok)).

(** [lb.entries++] *)
Definition count_key (lb : Cache) : Cache :=
  set_entries (Int64.wrap (entries lb + 1)) lb.

(** Lines 96-101 of [put]: count a new key and collect garbage. *)
Definition put_count (os : gc_orders) (now : Z) (existed : bool) (lb : Cache) : Cache :=
  if existed then lb
  else
    let lb := count_key lb in
    if entries lb >? MaxEntries lb then gc os now lb else lb.

Definition put (os : gc_orders) (k quantity limit now : Z) (lb : Cache)
  : Cache * put_result :=
  let '(lb, (t, existed, ok)) := put_store k quantity limit now lb in
  (put_count os now existed lb, (t, existed, ok)).

(** ** The key hasher and the locking entry points *)

(** [hash/fnv]'s 64-bit FNV-1a: [New64a], [Write], [Sum64]. *)
Definition offset64 : Z := 14695981039346656037.
Definition prime64 : Z := 1099511628211.

Definition fnv64a_write (h : Z) (data : list Z) : Z :=
  fold_left (λ hash c, Uint64.wrap (Z.lxor hash c * prime64)) data h.

Definition bytes_of_string (s : string) : list Z :=
  (λ a, Z.of_N (N_of_ascii a)) <$> list_ascii_of_string s.

Definition key (k : string) : Z := fnv64a_write offset64 (bytes_of_string k).

(** A sequential run cannot take a mutex that is held: no call returns. *)
Definition Lock (lb : Cache) : option Cache :=
  if mu lb then None else Some (set_mu true lb).

Definition Unlock (lb : Cache) : Cache := set_mu false lb.

Definition Put (os : gc_orders) (clock : Z) (k quantity limit : Z) (lb : Cache)
  : option (Cache * put_result) :=
  let now := clock in
  lb ← Lock lb;
  let '(lb, r) := put os k quantity limit now lb in
  Some (Unlock lb, r).

Definition PutString (os : gc_orders) (clock : Z) (ks : string) (quantity limit : Z)
    (lb : Cache) : option (Cache * put_result) :=
  let k := key ks in
  let now := clock in
  lb ← Lock lb;
  let '(lb, r) := put os k quantity limit now lb in
  Some (Unlock lb, r).

(** ** Runs of [put] *)

Record call : Type := Call {
  call_key : Z;
  call_quantity : Z;
  call_limit : Z;
  call_now : Z;
  call_orders : gc_orders
}.

Definition do_call (lb : Cache) (c : call) : Cache :=
  (put (call_orders c) (call_key c) (call_quantity c) (call_limit c) (call_now c) lb).1.

Definition run (calls : list call) (lb : Cache) : Cache := foldl do_call lb calls.

(** A call that iterates in [key_order]. *)
Definition call_at (k quantity limit now : Z) : call :=
  Call k quantity limit now key_orders.

(** ** Specification vocabulary *)

(** [entries == |table|], with a count that is a value of type [int]. *)
Definition consistent (lb : Cache) : Prop :=
  entries lb = Z.of_nat (size (cache lb)) ∧ entries lb <= Int64.max_int.

(** [lb'] has the configuration of [lb], a count that matches its table, and
    no more entries than [lb]. *)
Definition shrinks (lb lb' : Cache) : Prop :=
  MaxEntries lb' = MaxEntries lb ∧ mu lb' = mu lb ∧
  consistent lb' ∧ entries lb' <= entries lb.

(** What a run of [put] on the cache of [New maxEntries] maintains. When
    [maxEntries] is the largest [int] the test [entries > MaxEntries] never
    holds and the bound is a matter of range. *)
Definition capacity_inv (maxEntries : Z) (lb : Cache) : Prop :=
  MaxEntries lb = maxEntries ∧ 0 < maxEntries ∧ Int64.in_range (entries lb) ∧
  (maxEntries < Int64.max_int → consistent lb ∧ entries lb <= maxEntries).

(** The token count of the bucket [k] decayed to [now], 0 for an absent key. *)
Definition decayed (lb : Cache) (k now : Z) : Z :=
  match cache lb !! k with
  | Some e => tokens (update e now)
  | None => 0
  end.

(** The components of what [put] returns. *)
Definition res_tokens (r : put_result) : Z := r.1.1.
Definition res_existed (r : put_result) : bool := r.1.2.
Definition res_ok (r : put_result) : bool := r.2.

(** The cache [New] builds and the states runs of well-typed calls reach. *)
Definition valid_call (c : call) : Prop :=
  valid_orders (call_orders c) ∧
  0 <= call_key c < 2 ^ 64 ∧
  Int64.in_range (call_quantity c) ∧ Int64.in_range (call_limit c) ∧
  Int64.in_range (call_now c).

Definition reachable (lb : Cache) : Prop :=
  ∃ maxEntries lb0 calls,
    Int64.in_range maxEntries ∧ New maxEntries = Some lb0 ∧
    Forall valid_call calls ∧ lb = run calls lb0.

(** What a scan makes of one bucket: dropped when it has drained by [now],
    else decayed to [now]. *)
Definition sweep (now : Z) (e : entry) : option entry :=
  if tokens (update e now) <=? 0 then None else Some (update e now).

(** Every bucket of [m'] is a bucket of [m], as it was or decayed to [now]. *)
Definition decays_or_keeps (now : Z) (m m' : gmap Z entry) : Prop :=
  ∀ k e', m' !! k = Some e' →
    ∃ e, m !! k = Some e ∧ (e' = e ∨ e' = update e now).

(** Every bucket holds a token count in [0, MaxInt64] and was last updated at
    a time in [0, now]: the tables runs with non-negative quantities and a
    clock that has reached [now] build. *)
Definition settled (now : Z) (lb : Cache) : Prop :=
  ∀ k e, cache lb !! k = Some e →
    0 <= tokens e <= Int64.max_int ∧ 0 <= updated e <= now.

(** No bucket has drained by [now]. *)
Definition all_live (now : Z) (lb : Cache) : Prop :=
  ∀ k e, cache lb !! k = Some e → 0 < tokens (update e now).

(** ** Concrete caches used below *)

(** What [New] returns for a positive [maxEntries]. *)
Definition new_cache (maxEntries : Z) : Cache := MkCache maxEntries false ∅ 0.

(** One bucket filled to the largest [int64]. *)
Definition full_bucket : Cache :=
  run [call_at 1 Int64.max_int Int64.max_int 0] (new_cache 10).

(** One bucket that was given the smallest [int64] as its quantity. *)
Definition drained_bucket : Cache :=
  run [call_at 7 Int64.min_int 0 0] (new_cache 10).

(** One bucket that was given the quantity -1. *)
Definition negative_bucket : Cache :=
  run [call_at 7 (-1) 0 0] (new_cache 10).

(** The cache of [TestMaxEntries] after its first two calls, and the state
    in which the third call enters [gc]. *)
Definition tiny_cache : Cache :=
  run [call_at 1 1000 100000000 0; call_at 2 2000 100000000 0] (new_cache 2).

Definition tiny_over : Cache :=
  count_key (put_store 3 30000 100000000 0 tiny_cache).1.

(** A cache of capacity 101 holding the keys 1..101, one token each, all
    filled at time 0, and the state in which a call for the key 0 at time 10
    enters [gc]: by then the 101 older buckets have drained. *)
Definition expired_cache : Cache :=
  run ((λ i, call_at i 1 10 0) <$> seqZ 1 101) (new_cache 101).

Definition expired_over : Cache :=
  count_key (put_store 0 5 10 10 expired_cache).1.

(** A cache of capacity 1 holding one bucket. *)
Definition single_cache : Cache := run [call_at 1 5 10 0] (new_cache 1).

(** A cache with room to spare, holding two buckets filled at time 0. *)
Definition roomy_cache : Cache :=
  run [call_at 1 1000 1000000000 0; call_at 2 5000 1000000000 0] (new_cache 10000).

(** * Properties *)

(** ** Test vectors of the key hasher *)

Example key_empty : key "" = 0xcbf29ce484222325.
Proof. reflexivity. Qed.

Example key_a : key "a" = 0xaf63dc4c8601ec8c.
Proof. vm_compute. reflexivity. Qed.

Example key_abc : key "abc" = 0xe71fa2190541574b.
Proof. vm_compute. reflexivity. Qed.

(** ** The scenarios of the repository's tests *)

(** [TestPut]: five new keys are admitted with their quantity. *)
Example test_put_new :
  (λ c, (put key_orders (call_key c) (call_quantity c) (call_limit c) (call_now c)
           (new_cache 10000)).2)
    <$> [call_at 1 1000 1000000000 7000; call_at 2 2000 1000000000 7000;
         call_at 5 50000000 1000000000 7000]
  = [(1000, false, true); (2000, false, true); (50000000, false, true)].
Proof. by vm_compute. Qed.

(** [TestPut]: 500ns and a [gc] later each bucket has drained by 500; after
    2000ns more, [gc] frees the two buckets that are empty. *)
Example test_put_decay :
  let lb := run [call_at 1 1000 1000000000 7000; call_at 2 2000 1000000000 7000;
                 call_at 3 30000 1000000000 7000; call_at 4 400000 1000000000 7000;
                 call_at 5 50000000 1000000000 7000] (new_cache 10000) in
  let lb1 := gc key_orders 7500 lb in
  let lb2 := run [call_at 1 1 1000000000 7500; call_at 2 1 1000000000 7500;
                  call_at 3 1 1000000000 7500; call_at 4 1 1000000000 7500;
                  call_at 5 1 1000000000 7500] lb1 in
  entries lb = 5
  ∧ (put key_orders 1 1 1000000000 7500 lb1).2 = (501, true, true)
  ∧ (put key_orders 4 1 1000000000 7500 lb1).2 = (399501, true, true)
  ∧ entries (gc key_orders 9500 lb2) = 3.
Proof. by vm_compute. Qed.

(** [TestMaxEntries]: five keys into a cache of two leave two entries. *)
Example test_max_entries :
  entries (run [call_at 1 1000 100000000 0; call_at 2 2000 100000000 0;
                call_at 3 30000 100000000 0; call_at 4 400000 100000000 0;
                call_at 5 50000000 100000000 0] (new_cache 2)) = 2.
Proof. by vm_compute. Qed.

(** ** Machine arithmetic *)

Ltac int_range :=
  unfold Int64.in_range, Int64.min_int, Int64.max_int in *.

Lemma wrap_in_range (z : Z) : Int64.in_range (Int64.wrap z).
Proof.
  int_range. unfold Int64.wrap.
  pose proof (Z.mod_pos_bound (z + 2 ^ 63) (2 ^ 64)). lia.
Qed.

Lemma wrap_id (z : Z) : Int64.in_range z → Int64.wrap z = z.
Proof.
  int_range. intros Hz. unfold Int64.wrap.
  rewrite Z.mod_small; lia.
Qed.

Lemma Zmax_ltb (z : Z) : (if z <? 0 then 0 else z) = Z.max 0 z.
Proof. destruct (Z.ltb_spec z 0); lia. Qed.

(** ** The decay model *)

Lemma update_unfold (e : entry) (now : Z) :
  update e now =
  Entry (Z.max 0 (Int64.wrap (tokens e - Z.max 0 (Int64.wrap (now - updated e))))) now.
Proof. unfold update. by rewrite !Zmax_ltb. Qed.

Lemma update_tokens_range (e : entry) (now : Z) :
  0 <= tokens (update e now) <= Int64.max_int.
Proof.
  rewrite update_unfold. simpl.
  pose proof (wrap_in_range (tokens e - Z.max 0 (Int64.wrap (now - updated e)))).
  int_range. lia.
Qed.

Lemma update_updated (e : entry) (now : Z) : updated (update e now) = now.
Proof. done. Qed.

Lemma decayed_range (lb : Cache) (k now : Z) :
  0 <= decayed lb k now <= Int64.max_int.
Proof.
  unfold decayed. destruct (cache lb !! k).
  - apply update_tokens_range.
  - int_range. lia.
Qed.

(** ** Iteration orders and reachable states *)

Lemma key_order_valid : valid_order key_order.
Proof.
  intros m. split.
  - apply NoDup_fst_map_to_list.
  - intros k. unfold key_order. rewrite list_elem_of_fmap. split.
    + intros [[k' e] [-> Hin]]. apply elem_of_map_to_list in Hin. by exists e.
    + intros [e He]. exists (k, e). split; [done|]. by apply elem_of_map_to_list.
Qed.

Lemma key_orders_valid : valid_orders key_orders.
Proof. repeat split; apply key_order_valid. Qed.

Lemma call_at_valid (k quantity limit now : Z) :
  0 <= k < 2 ^ 64 → Int64.in_range quantity → Int64.in_range limit →
  Int64.in_range now → valid_call (call_at k quantity limit now).
Proof.
  intros. unfold valid_call. int_range. simpl.
  repeat split; try apply key_order_valid; lia.
Qed.

Lemma New_Some (maxEntries : Z) : 0 < maxEntries → New maxEntries = Some (new_cache maxEntries).
Proof. intros H. unfold New. destruct (Z.leb_spec maxEntries 0); [lia | done]. Qed.

Lemma reachable_run (maxEntries : Z) (calls : list call) :
  0 < maxEntries <= Int64.max_int → Forall valid_call calls →
  reachable (run calls (new_cache maxEntries)).
Proof.
  intros HM Hc. exists maxEntries, (new_cache maxEntries), calls.
  repeat split; try done; [int_range; lia | lia | apply New_Some; lia].
Qed.

Ltac reachable_by_run :=
  apply reachable_run;
  [ int_range; lia
  | repeat (apply Forall_cons; split; [apply call_at_valid; int_range; lia |]);
    by apply Forall_nil ].

Lemma full_bucket_reachable : reachable full_bucket.
Proof. reachable_by_run. Qed.

Lemma drained_bucket_reachable : reachable drained_bucket.
Proof. reachable_by_run. Qed.

Lemma negative_bucket_reachable : reachable negative_bucket.
Proof. reachable_by_run. Qed.

(** ** C2: decay *)

(** C2, as stated, fails where the 64-bit subtraction wraps: the bucket of
    [drained_bucket] holds the smallest [int64]; one nanosecond later
    [update] turns it into the largest one, where the claim's formula gives 0. *)
Lemma update_decay_wraps :
  reachable drained_bucket ∧
  cache drained_bucket !! 7 = Some (Entry Int64.min_int 0) ∧
  update (Entry Int64.min_int 0) 1 = Entry Int64.max_int 1 ∧
  tokens (update (Entry Int64.min_int 0) 1)
    ≠ Z.max 0 (tokens (Entry Int64.min_int 0) - Z.max 0 (1 - updated (Entry Int64.min_int 0))).
Proof.
  split; [apply drained_bucket_reachable|].
  split; [by vm_compute|]. split; [by vm_compute|]. by vm_compute.
Qed.

(** C2 (amended): advancing [e] to [now] yields
    [tokens' = max 0 (T - max 0 (now - t0))] computed in wrapping [int64]
    arithmetic, and [updated = now]. Whenever [now - t0] and
    [T - max 0 (now - t0)] are representable in [int64], this is the
    mathematical [max 0 (T - max 0 (now - t0))], no tokens are gained, and
    [now < t0] gives the result of advancing with zero elapsed time.
    [update] reads nothing but [e] and [now]. *)
Theorem update_decay (e : entry) (now : Z) :
  update e now
    = Entry (Z.max 0 (Int64.wrap (tokens e - Z.max 0 (Int64.wrap (now - updated e))))) now
  ∧ (Int64.in_range (now - updated e) →
     Int64.in_range (tokens e - Z.max 0 (now - updated e)) →
     update e now = Entry (Z.max 0 (tokens e - Z.max 0 (now - updated e))) now
     ∧ tokens (update e now) <= Z.max 0 (tokens e)
     ∧ (now < updated e →
        update e now = Entry (Z.max 0 (tokens e)) now
        ∧ tokens (update e now) = tokens (update e (updated e)))).
Proof.
  split; [apply update_unfold|].
  intros Hs Ht. rewrite !update_unfold. simpl.
  rewrite (wrap_id (now - updated e)) by done.
  rewrite (wrap_id (tokens e - _)) by done.
  split; [done|]. split; [lia|].
  intros Hlt. replace (Z.max 0 (now - updated e)) with 0 in * by lia.
  rewrite Z.sub_diag, (wrap_id 0) by (int_range; lia).
  change (Z.max 0 0) with 0. rewrite Z.sub_0_r in *.
  by rewrite (wrap_id (tokens e)).
Qed.

Lemma update_decay_witness :
  Int64.in_range (700 - updated (Entry 1000 200)) ∧
  Int64.in_range (tokens (Entry 1000 200) - Z.max 0 (700 - updated (Entry 1000 200))) ∧
  update (Entry 1000 200) 700 = Entry 500 700 ∧
  (100 < updated (Entry 1000 200) ∧ update (Entry 1000 200) 100 = Entry 1000 100).
Proof.
  split; [int_range; simpl; lia|]. split; [int_range; simpl; lia|].
  split.
  - apply (update_decay (Entry 1000 200) 700); int_range; simpl; lia.
  - split; [simpl; lia|].
    apply (update_decay (Entry 1000 200) 100); int_range; simpl; lia.
Defined.

(** ** C7: advancing an entry to its own time *)

(** C7, as stated, fails for an entry whose token count is negative, such as
    the one a [put] of quantity -1 stores: [update] resets it to 0. *)
Lemma update_same_time_negative :
  reachable negative_bucket ∧
  cache negative_bucket !! 7 = Some (Entry (-1) 0) ∧
  update (Entry (-1) 0) (updated (Entry (-1) 0)) ≠ Entry (-1) 0.
Proof.
  split; [apply negative_bucket_reachable|].
  split; [by vm_compute|]. by vm_compute.
Qed.

(** C7 (amended): for every entry [e] whose token count is not negative,
    [update e (updated e) = e]; an entry with a negative token count is
    not a fixed point. *)
Theorem update_same_time (e : entry) :
  Int64.in_range (tokens e) →
  (update e (updated e) = e ↔ 0 <= tokens e).
Proof.
  intros Ht. rewrite update_unfold, Z.sub_diag, (wrap_id 0) by (int_range; lia).
  change (Z.max 0 0) with 0. rewrite Z.sub_0_r, (wrap_id (tokens e)) by done.
  destruct e as [t u]; simpl in *. split.
  - intros [= Heq]. lia.
  - intros Hpos. f_equal. lia.
Qed.

Lemma update_same_time_witness :
  Int64.in_range (tokens (Entry 42 1000)) ∧ 0 <= tokens (Entry 42 1000) ∧
  update (Entry 42 1000) (updated (Entry 42 1000)) = Entry 42 1000.
Proof.
  split; [int_range; simpl; lia|]. split; [simpl; lia|].
  apply (update_same_time (Entry 42 1000)); [int_range; simpl; lia | simpl; lia].
Defined.

(** ** C8: the string entry point *)

Lemma fnv64a_write_range (data : list Z) (h : Z) :
  0 <= h < 2 ^ 64 → 0 <= fnv64a_write h data < 2 ^ 64.
Proof.
  revert h. induction data as [|c data IH]; intros h Hh; [done|].
  apply IH. unfold Uint64.wrap. apply Z.mod_pos_bound. lia.
Qed.

(** C8: at the same clock reading, [PutString ks] returns what
    [Put (key ks)] returns and leaves the same cache, [key] being the 64-bit
    FNV-1a hash of the bytes of [ks], a [uint64]. *)
Theorem PutString_is_Put (os : gc_orders) (clock : Z) (ks : string)
    (quantity limit : Z) (lb : Cache) :
  PutString os clock ks quantity limit lb = Put os clock (key ks) quantity limit lb
  ∧ key ks = fold_left (λ hash c, (Z.lxor hash c * prime64) mod 2 ^ 64)
               (bytes_of_string ks) offset64
  ∧ 0 <= key ks < 2 ^ 64.
Proof.
  split; [done|]. split; [done|].
  apply fnv64a_write_range. unfold offset64. lia.
Qed.

(** ** C1 and C9: admission *)

Lemma put_store_unfold (k quantity limit now : Z) (lb : Cache) :
  put_store k quantity limit now lb =
  let d := decayed lb k now in
  let ok := Int64.wrap (d + quantity) <=? limit in
  let t := if ok then Int64.wrap (d + quantity) else d in
  (set_cache (<[k := Entry t now]> (cache lb)) lb,
   (t, bool_decide (is_Some (cache lb !! k)), ok)).
Proof.
  unfold put_store, decayed. destruct (cache lb !! k) as [e|] eqn:Hk; simpl.
  - by destruct (_ <=? limit).
  - by destruct (_ <=? limit).
Qed.

Lemma put_unfold (os : gc_orders) (k quantity limit now : Z) (lb : Cache) :
  put os k quantity limit now lb =
  (put_count os now (put_store k quantity limit now lb).2.1.2
     (put_store k quantity limit now lb).1,
   (put_store k quantity limit now lb).2).
Proof.
  unfold put. by destruct (put_store k quantity limit now lb) as [? [[? ?] ?]].
Qed.

(** When [gc] is not called, the table [put] leaves is the table it wrote. *)
Lemma put_count_no_gc (os : gc_orders) (now : Z) (existed : bool) (lb : Cache) :
  existed = true ∨ Int64.wrap (entries lb + 1) <= MaxEntries lb →
  cache (put_count os now existed lb) = cache lb.
Proof.
  intros H. unfold put_count. destruct existed; [done|].
  destruct H as [?|H]; [done|]. simpl.
  destruct (Z.gtb_spec (Int64.wrap (entries lb + 1)) (MaxEntries lb)); [lia | done].
Qed.

(** C1, as stated, fails where the 64-bit sum wraps: the bucket of
    [full_bucket] holds the largest [int64]; a further token is admitted
    under the limit 0 although [decayed_tokens + 1] exceeds it. *)
Lemma put_admission_wraps :
  reachable full_bucket ∧
  decayed full_bucket 1 0 = Int64.max_int ∧
  res_ok (put key_orders 1 1 0 0 full_bucket).2 = true ∧
  ¬ (res_ok (put key_orders 1 1 0 0 full_bucket).2 = true
     ↔ decayed full_bucket 1 0 + 1 <= 0).
Proof.
  split; [apply full_bucket_reachable|].
  split; [by vm_compute|]. split; [by vm_compute|].
  intros [H _]. by vm_compute in H; specialize (H eq_refl).
Qed.

(** C1 (amended): [put k q l now] admits iff the wrapping [int64] sum
    [decayed_tokens + q] is at most [l], which is the mathematical sum
    whenever that is representable in [int64]; the returned token count is
    that sum on admission and [decayed_tokens] on rejection; the entry with
    that token count and [updated = now] is written to the table, which then
    goes through the counting and [gc] step of [put], and it is what the
    table holds at [k] when [put] returns without having called [gc]. *)
Theorem put_admission (os : gc_orders) (k q l now : Z) (lb lb' : Cache)
    (t : Z) (existed ok : bool) :
  put os k q l now lb = (lb', (t, existed, ok)) →
  (ok = true ↔ Int64.wrap (decayed lb k now + q) <= l)
  ∧ t = (if ok then Int64.wrap (decayed lb k now + q) else decayed lb k now)
  ∧ existed = bool_decide (is_Some (cache lb !! k))
  ∧ (put_store k q l now lb).1 = set_cache (<[k := Entry t now]> (cache lb)) lb
  ∧ lb' = put_count os now existed (set_cache (<[k := Entry t now]> (cache lb)) lb)
  ∧ (existed = true ∨ Int64.wrap (entries lb + 1) <= MaxEntries lb →
     cache lb' !! k = Some (Entry t now))
  ∧ (Int64.in_range (decayed lb k now + q) →
     (ok = true ↔ decayed lb k now + q <= l)
     ∧ t = (if ok then decayed lb k now + q else decayed lb k now)).
Proof.
  rewrite put_unfold, put_store_unfold. simpl. intros [= <- <- <- <-].
  split; [apply Z.leb_le|]. split; [done|]. split; [done|]. split; [done|].
  split; [done|]. split.
  - intros H. rewrite put_count_no_gc by done. simpl. apply lookup_insert_eq.
  - intros Hr. rewrite (wrap_id _ Hr). split; [apply Z.leb_le | done].
Qed.

Lemma put_admission_witness :
  put key_orders 3 400 1000 50 (new_cache 10)
    = ((put key_orders 3 400 1000 50 (new_cache 10)).1, (400, false, true)) ∧
  Int64.in_range (decayed (new_cache 10) 3 50 + 400) ∧
  Int64.wrap (entries (new_cache 10) + 1) <= MaxEntries (new_cache 10) ∧
  (true = true ↔ decayed (new_cache 10) 3 50 + 400 <= 1000) ∧
  cache (put key_orders 3 400 1000 50 (new_cache 10)).1 !! 3 = Some (Entry 400 50).
Proof.
  assert (He : put key_orders 3 400 1000 50 (new_cache 10)
    = ((put key_orders 3 400 1000 50 (new_cache 10)).1, (400, false, true)))
    by (vm_compute; reflexivity).
  assert (Hr : Int64.in_range (decayed (new_cache 10) 3 50 + 400))
    by (vm_compute; split; discriminate).
  assert (Hc : Int64.wrap (entries (new_cache 10) + 1) <= MaxEntries (new_cache 10))
    by (vm_compute; discriminate).
  destruct (put_admission _ _ _ _ _ _ _ _ _ _ He) as (_ & _ & _ & _ & _ & Hk & Hm).
  split; [exact He|]. split; [exact Hr|]. split; [exact Hc|].
  split; [exact (proj1 (Hm Hr)) | exact (Hk (or_intror Hc))].
Defined.

(** C9: [put] accepts a negative quantity [q]: the sum [decayed_tokens + q]
    cannot wrap, admission succeeds iff [decayed_tokens + q <= l], and on
    admission the token count returned and written to the table is
    [decayed_tokens + q]. A reachable table holds an entry with a negative
    token count, which any later [update] sets to 0. *)
Theorem put_negative_quantity :
  (∀ (os : gc_orders) (k q l now : Z) (lb lb' : Cache) (t : Z) (existed ok : bool),
     Int64.min_int <= q < 0 →
     put os k q l now lb = (lb', (t, existed, ok)) →
     (ok = true ↔ decayed lb k now + q <= l)
     ∧ (ok = true →
        t = decayed lb k now + q
        ∧ cache (put_store k q l now lb).1 !! k
            = Some (Entry (decayed lb k now + q) now)
        ∧ (existed = true ∨ Int64.wrap (entries lb + 1) <= MaxEntries lb →
           cache lb' !! k = Some (Entry (decayed lb k now + q) now))))
  ∧ (∃ (lb : Cache) (k : Z) (e : entry),
       reachable lb ∧ cache lb !! k = Some e ∧ tokens e < 0
       ∧ ∀ now, tokens (update e now) = 0).
Proof.
  split.
  - intros os k q l now lb lb' t existed ok Hq.
    rewrite put_unfold, put_store_unfold. simpl. intros [= <- <- <- <-].
    pose proof (decayed_range lb k now) as Hd.
    rewrite (wrap_id (decayed lb k now + q)) by (int_range; lia).
    split; [apply Z.leb_le|]. intros ->.
    split; [done|]. split; [simpl; apply lookup_insert_eq|].
    intros H. rewrite put_count_no_gc by done. simpl. apply lookup_insert_eq.
  - exists negative_bucket, 7, (Entry (-1) 0).
    split; [apply negative_bucket_reachable|]. split; [by vm_compute|].
    split; [simpl; lia|]. intros now. rewrite update_unfold. simpl.
    pose proof (wrap_in_range (now - 0)) as Hs.
    rewrite (wrap_id (-1 - _)) by (int_range; lia). lia.
Qed.

Lemma put_negative_quantity_witness :
  Int64.min_int <= -5 < 0 ∧
  put key_orders 3 (-5) 0 50 (new_cache 10)
    = ((put key_orders 3 (-5) 0 50 (new_cache 10)).1, (-5, false, true)) ∧
  (true = true ↔ decayed (new_cache 10) 3 50 + -5 <= 0) ∧
  -5 = decayed (new_cache 10) 3 50 + -5.
Proof.
  assert (Hq : Int64.min_int <= -5 < 0) by (int_range; lia).
  assert (He : put key_orders 3 (-5) 0 50 (new_cache 10)
    = ((put key_orders 3 (-5) 0 50 (new_cache 10)).1, (-5, false, true)))
    by (vm_compute; reflexivity).
  destruct put_negative_quantity as [H _].
  destruct (H _ _ _ _ _ _ _ _ _ _ Hq He) as [Hiff Hadm].
  split; [exact Hq|]. split; [exact He|]. split; [exact Hiff|].
  exact (proj1 (Hadm eq_refl)).
Defined.

(** ** The count of live entries under [scan] and [gc] *)

Lemma consistent_range (lb : Cache) : consistent lb → 0 <= entries lb <= Int64.max_int.
Proof. intros [-> ?]. lia. Qed.

Lemma shrinks_refl (lb : Cache) : consistent lb → shrinks lb lb.
Proof. intros H. repeat split; try apply H. lia. Qed.

Lemma shrinks_trans (lb1 lb2 lb3 : Cache) :
  shrinks lb1 lb2 → shrinks lb2 lb3 → shrinks lb1 lb3.
Proof.
  intros (HM1 & Hm1 & _ & He1) (HM2 & Hm2 & Hc & He2).
  repeat split; try apply Hc; try congruence. lia.
Qed.

Lemma delete_key_shrinks (k : Z) (lb : Cache) :
  consistent lb → is_Some (cache lb !! k) →
  shrinks lb (delete_key k lb) ∧ entries (delete_key k lb) = entries lb - 1.
Proof.
  intros [Hsz Hmax] Hk.
  pose proof (map_size_ne_0_lookup_2 _ _ Hk) as Hne.
  pose proof (map_size_delete_Some _ _ Hk) as Hdel.
  assert (Hw : Int64.wrap (entries lb - 1) = entries lb - 1)
    by (apply wrap_id; int_range; lia).
  unfold shrinks, consistent, delete_key. simpl. rewrite Hw, Hdel.
  repeat split; lia.
Qed.

Section ScanLoop.

Context (now count : Z).

Lemma scan_visit_shrinks (k : Z) (e : entry) (lb : Cache) :
  consistent lb → cache lb !! k = Some e →
  shrinks lb (scan_visit now k e lb) ∧
  entries lb - 1 <= entries (scan_visit now k e lb).
Proof.
  intros Hc Hk. unfold scan_visit.
  destruct (tokens (update e now) <=? 0).
  - destruct (delete_key_shrinks k lb Hc) as [Hs He]; [by eauto|].
    split; [done | lia].
  - split; [|simpl; lia]. destruct Hc as [Hsz Hmax].
    unfold shrinks, consistent. simpl.
    rewrite map_size_insert_Some by eauto. repeat split; lia.
Qed.

Lemma scan_range_shrinks (ks : list Z) (n : Z) (lb : Cache) :
  consistent lb → shrinks lb (scan_range now count ks n lb).
Proof.
  revert n lb. induction ks as [|k ks IH]; intros n lb Hc; simpl.
  - by apply shrinks_refl.
  - destruct (cache lb !! k) as [e|] eqn:Hk; [|by apply IH].
    destruct (scan_visit_shrinks k e lb Hc Hk) as [Hs _].
    destruct (_ >=? count); [done|].
    eapply shrinks_trans; [exact Hs|]. apply IH, Hs.
Qed.

(** A scan removes at most as many entries as it may visit. *)
Lemma scan_range_removed (ks : list Z) (n : Z) (lb : Cache) :
  consistent lb → 0 <= n < Int64.max_int → count <= Int64.max_int →
  entries lb - entries (scan_range now count ks n lb) <= Z.max 1 (count - n).
Proof.
  revert n lb. induction ks as [|k ks IH]; intros n lb Hc Hn Hcount; simpl.
  - lia.
  - destruct (cache lb !! k) as [e|] eqn:Hk; [|by apply IH].
    destruct (scan_visit_shrinks k e lb Hc Hk) as [Hs Hone].
    rewrite (wrap_id (n + 1)) by (int_range; lia).
    destruct (Z.geb_spec (n + 1) count) as [|Hlt]; [lia|].
    assert (Hc' : consistent (scan_visit now k e lb)) by apply Hs.
    specialize (IH (n + 1) _ Hc'). lia.
Qed.

End ScanLoop.

Lemma scan_spec (ord : range_order) (now count : Z) (lb : Cache) :
  consistent lb →
  shrinks lb (scan ord now count lb).1
  ∧ (scan ord now count lb).2 = entries (scan ord now count lb).1 - entries lb
  ∧ (count <= Int64.max_int →
     entries lb - entries (scan ord now count lb).1 <= Z.max 1 count).
Proof.
  intros Hc. unfold scan. simpl.
  pose proof (scan_range_shrinks now count (ord (cache lb)) 0 lb Hc) as Hs.
  split; [done|]. split.
  - pose proof (consistent_range lb Hc).
    destruct Hs as (_ & _ & Hc' & Hle). pose proof (consistent_range _ Hc').
    apply wrap_id. int_range. lia.
  - intros Hcount.
    pose proof (scan_range_removed now count (ord (cache lb)) 0 lb Hc) as Hr.
    rewrite Z.sub_0_r in Hr. apply Hr; [int_range; lia | done].
Qed.

Lemma gc_forced_shrinks (ks : list Z) (left : Z) (lb : Cache) :
  consistent lb → shrinks lb (gc_forced ks left lb).
Proof.
  revert left lb. induction ks as [|k ks IH]; intros left lb Hc; simpl.
  - by apply shrinks_refl.
  - destruct (cache lb !! k) as [e|] eqn:Hk; [|by apply IH].
    destruct (delete_key_shrinks k lb Hc) as [Hs _]; [by eauto|].
    destruct (_ <=? 0); [done|].
    eapply shrinks_trans; [exact Hs|]. apply IH, Hs.
Qed.

(** The forced deletion removes [left] entries, or all when there are fewer. *)
Lemma gc_forced_entries (ks : list Z) (left : Z) (lb : Cache) :
  NoDup ks → (∀ k, k ∈ ks ↔ is_Some (cache lb !! k)) →
  consistent lb → 0 < left <= Int64.max_int →
  entries (gc_forced ks left lb) = Z.max 0 (entries lb - left).
Proof.
  revert left lb. induction ks as [|k ks IH]; intros left lb Hnd Hks Hc Hleft; simpl.
  - assert (Hempty : cache lb = ∅).
    { apply map_empty. intros i. apply eq_None_not_Some. rewrite <- Hks.
      apply not_elem_of_nil. }
    destruct Hc as [Hsz _]. rewrite Hempty, map_size_empty in Hsz. lia.
  - assert (Hk : is_Some (cache lb !! k)) by (apply Hks; left; done).
    destruct Hk as [e Hk]. rewrite Hk.
    destruct (delete_key_shrinks k lb Hc) as [Hs He]; [by eauto|].
    pose proof (consistent_range lb Hc) as Hr.
    assert (Hpos : entries lb ≠ 0).
    { destruct Hc as [-> _]. pose proof (map_size_ne_0_lookup_2 (cache lb) k).
      cut (size (cache lb) ≠ 0%nat); [lia | eauto]. }
    rewrite (wrap_id (left - 1)) by (int_range; lia).
    destruct (Z.leb_spec (left - 1) 0) as [Hle|Hgt]; [lia|].
    apply NoDup_cons in Hnd as [Hnotin Hnd].
    rewrite IH; [lia | done | | apply Hs | lia].
    intros k'. unfold delete_key. simpl. rewrite lookup_delete_is_Some.
    rewrite <- Hks. rewrite elem_of_cons. split.
    + intros Hin. split; [|by right]. intros ->. done.
    + intros [Hne [->|Hin]]; done.
Qed.

Lemma gc_unfold (os : gc_orders) (now : Z) (lb : Cache) :
  gc os now lb =
  if (gc_phase1 os now lb).2 <=? 0 then (gc_phase1 os now lb).1
  else
    if (gc_phase2 os now (gc_phase1 os now lb).1 (gc_phase1 os now lb).2).2 <=? 0
    then (gc_phase2 os now (gc_phase1 os now lb).1 (gc_phase1 os now lb).2).1
    else gc_forced
           (ord_forced os
              (cache (gc_phase2 os now (gc_phase1 os now lb).1 (gc_phase1 os now lb).2).1))
           (gc_phase2 os now (gc_phase1 os now lb).1 (gc_phase1 os now lb).2).2
           (gc_phase2 os now (gc_phase1 os now lb).1 (gc_phase1 os now lb).2).1.
Proof.
  unfold gc. destruct (gc_phase1 os now lb) as [lb1 left1]. simpl.
  by destruct (gc_phase2 os now lb1 left1) as [lb2 left2].
Qed.

Lemma gc_phase1_unfold (os : gc_orders) (now : Z) (lb : Cache) :
  gc_phase1 os now lb =
  ((scan (ord_scan1 os) now gcScanEntries lb).1,
   Int64.wrap (gc_left0 lb - (scan (ord_scan1 os) now gcScanEntries lb).2)).
Proof. unfold gc_phase1. by destruct (scan _ _ _ _). Qed.

Lemma gc_phase2_unfold (os : gc_orders) (now : Z) (lb : Cache) (left : Z) :
  gc_phase2 os now lb left =
  ((scan (ord_scan2 os) now gcScanEntries lb).1,
   Int64.wrap (left - (scan (ord_scan2 os) now gcScanEntries lb).2)).
Proof. unfold gc_phase2. by destruct (scan _ _ _ _). Qed.

Lemma gc_shrinks (os : gc_orders) (now : Z) (lb : Cache) :
  consistent lb → shrinks lb (gc os now lb).
Proof.
  intros Hc. rewrite gc_unfold, !gc_phase1_unfold, !gc_phase2_unfold. cbn [fst snd].
  destruct (scan_spec (ord_scan1 os) now gcScanEntries lb Hc) as (Hs1 & _).
  set (lb1 := (scan (ord_scan1 os) now gcScanEntries lb).1) in *.
  assert (Hc1 : consistent lb1) by apply Hs1.
  destruct (scan_spec (ord_scan2 os) now gcScanEntries lb1 Hc1) as (Hs2 & _).
  set (lb2 := (scan (ord_scan2 os) now gcScanEntries lb1).1) in *.
  assert (Hc2 : consistent lb2) by apply Hs2.
  destruct (_ <=? 0); [done|].
  destruct (_ <=? 0); [by eapply shrinks_trans|].
  eapply shrinks_trans; [exact Hs1|]. eapply shrinks_trans; [exact Hs2|].
  by apply gc_forced_shrinks.
Qed.

(** [left] after the first scan: the count removed is added, since [scan]
    returns [lb.entries - start]. *)
Lemma gc_phase1_left (os : gc_orders) (now : Z) (lb : Cache) :
  consistent lb →
  Int64.in_range (gc_left0 lb + (entries lb - entries (gc_phase1 os now lb).1)) →
  (gc_phase1 os now lb).2
    = gc_left0 lb + (entries lb - entries (gc_phase1 os now lb).1).
Proof.
  intros Hc. rewrite gc_phase1_unfold. cbn [fst snd].
  destruct (scan_spec (ord_scan1 os) now gcScanEntries lb Hc) as (_ & -> & _).
  intros Hr. rewrite <- (wrap_id _ Hr). f_equal. lia.
Qed.

Lemma gc_entries (os : gc_orders) (now : Z) (lb : Cache) :
  valid_orders os → consistent lb →
  0 < MaxEntries lb < entries lb →
  entries lb - (MaxEntries lb - gcMustRemoveEntries) + 2 * gcScanEntries
    <= Int64.max_int →
  entries (gc os now lb) <= Z.max 0 (MaxEntries lb - gcMustRemoveEntries).
Proof.
  intros (Hv1 & Hv2 & Hv3) Hc HM Hfit.
  rewrite gc_unfold, !gc_phase1_unfold, !gc_phase2_unfold. cbn [fst snd].
  pose proof (consistent_range lb Hc) as HE.
  assert (Hcount : gcScanEntries <= Int64.max_int)
    by (unfold gcScanEntries; int_range; lia).
  destruct (scan_spec (ord_scan1 os) now gcScanEntries lb Hc) as (Hs1 & Hr1 & Hb1).
  specialize (Hb1 Hcount).
  set (lb1 := (scan (ord_scan1 os) now gcScanEntries lb).1) in *.
  assert (Hc1 : consistent lb1) by apply Hs1.
  pose proof (consistent_range lb1 Hc1) as HE1.
  destruct (scan_spec (ord_scan2 os) now gcScanEntries lb1 Hc1) as (Hs2 & Hr2 & Hb2).
  specialize (Hb2 Hcount).
  set (lb2 := (scan (ord_scan2 os) now gcScanEntries lb1).1) in *.
  assert (Hc2 : consistent lb2) by apply Hs2.
  pose proof (consistent_range lb2 Hc2) as HE2.
  destruct Hs1 as (HM1 & _ & _ & Hle1). destruct Hs2 as (HM2 & _ & _ & Hle2).
  rewrite Hr1, Hr2. unfold gc_left0.
  unfold gcScanEntries, gcMustRemoveEntries in *.
  rewrite (wrap_id (MaxEntries lb - 100)) by (int_range; lia).
  rewrite (wrap_id (entries lb - _)) by (int_range; lia).
  rewrite (wrap_id (entries lb - _ - _)) by (int_range; lia).
  rewrite (wrap_id (entries lb - _ - _ - _)) by (int_range; lia).
  destruct (Z.leb_spec (entries lb - (MaxEntries lb - 100) - (entries lb1 - entries lb)) 0);
    [lia|].
  destruct (Z.leb_spec (entries lb - (MaxEntries lb - 100) - (entries lb1 - entries lb)
                        - (entries lb2 - entries lb1)) 0); [lia|].
  destruct (Hv3 (cache lb2)) as [Hnd Hks].
  rewrite gc_forced_entries by (done || int_range; lia). lia.
Qed.

(** ** The count of live entries under [put] *)

Lemma put_shape (os : gc_orders) (k q l now : Z) (lb : Cache) :
  ∃ e, (put_store k q l now lb).1 = set_cache (<[k := e]> (cache lb)) lb
       ∧ (put os k q l now lb).1
         = put_count os now (bool_decide (is_Some (cache lb !! k)))
             (set_cache (<[k := e]> (cache lb)) lb).
Proof.
  rewrite put_unfold, put_store_unfold. simpl. eauto.
Qed.

Lemma count_key_consistent (k : Z) (e : entry) (lb : Cache) :
  consistent lb → cache lb !! k = None → entries lb < Int64.max_int →
  consistent (count_key (set_cache (<[k := e]> (cache lb)) lb))
  ∧ entries (count_key (set_cache (<[k := e]> (cache lb)) lb)) = entries lb + 1.
Proof.
  intros Hc Hk Hlt. pose proof (consistent_range lb Hc) as HE.
  destruct Hc as [Hsz Hmax]. unfold consistent, count_key. simpl.
  rewrite map_size_insert_None by done.
  rewrite (wrap_id (entries lb + 1)) by (int_range; lia). lia.
Qed.

Lemma put_consistent (os : gc_orders) (k q l now : Z) (lb : Cache) :
  consistent lb → is_Some (cache lb !! k) ∨ entries lb < Int64.max_int →
  consistent (put os k q l now lb).1
  ∧ MaxEntries (put os k q l now lb).1 = MaxEntries lb
  ∧ entries (put os k q l now lb).1 <= entries lb + 1.
Proof.
  intros Hc Hroom. destruct (put_shape os k q l now lb) as (e & _ & ->).
  destruct (cache lb !! k) as [e0|] eqn:Hk.
  - rewrite bool_decide_eq_true_2 by eauto. simpl.
    destruct Hc as [Hsz Hmax]. unfold consistent. simpl.
    rewrite map_size_insert_Some by eauto. repeat split; lia.
  - rewrite bool_decide_eq_false_2 by (by intros [? ?]).
    destruct Hroom as [[? ?]|Hroom]; [done|].
    destruct (count_key_consistent k e lb Hc Hk Hroom) as [Hc' He'].
    unfold put_count.
    destruct (_ >? _).
    + destruct (gc_shrinks os now _ Hc') as (HM & _ & Hc'' & Hle).
      split; [done|]. split; [by rewrite HM|]. lia.
    + split; [done|]. split; [done|]. lia.
Qed.

Lemma put_capacity (os : gc_orders) (k q l now : Z) (lb : Cache) :
  valid_orders os → consistent lb →
  0 < MaxEntries lb < Int64.max_int → entries lb <= MaxEntries lb →
  entries (put os k q l now lb).1 <= MaxEntries lb.
Proof.
  intros Hv Hc HM Hle. destruct (put_shape os k q l now lb) as (e & _ & ->).
  destruct (cache lb !! k) as [e0|] eqn:Hk.
  - by rewrite bool_decide_eq_true_2 by eauto.
  - rewrite bool_decide_eq_false_2 by (by intros [? ?]).
    destruct (count_key_consistent k e lb Hc Hk) as [Hc' He']; [lia|].
    unfold put_count.
    destruct (Z.gtb_spec (entries (count_key (set_cache (<[k:=e]> (cache lb)) lb)))
                (MaxEntries (count_key (set_cache (<[k:=e]> (cache lb)) lb)))) as [Hgt|Hngt].
    + etrans; [apply gc_entries; try done|].
      * simpl in *. lia.
      * rewrite He'. simpl. unfold gcMustRemoveEntries, gcScanEntries.
        int_range. lia.
      * simpl. unfold gcMustRemoveEntries. lia.
    + simpl in *. lia.
Qed.

Lemma put_capacity_inv (maxEntries : Z) (os : gc_orders) (k q l now : Z) (lb : Cache) :
  valid_orders os → capacity_inv maxEntries lb →
  capacity_inv maxEntries (put os k q l now lb).1.
Proof.
  intros Hv (HM & Hpos & Hr & Hsmall).
  destruct (Z.lt_ge_cases maxEntries Int64.max_int) as [Hlt|Hge].
  - destruct (Hsmall Hlt) as [Hc Hle].
    destruct (put_consistent os k q l now lb Hc) as (Hc' & HM' & _);
      [right; lia|].
    pose proof (put_capacity os k q l now lb Hv Hc) as Hcap.
    pose proof (consistent_range _ Hc') as HE'.
    split; [congruence|]. split; [done|]. split; [int_range; lia|].
    intros _. split; [done|]. rewrite <- HM. apply Hcap; lia.
  - destruct (put_shape os k q l now lb) as (e & _ & ->).
    assert (Hgoal : ∀ lb', MaxEntries lb' = maxEntries → Int64.in_range (entries lb') →
                           capacity_inv maxEntries lb').
    { intros lb' ? ?. repeat split; try done; try apply H0; lia. }
    destruct (bool_decide _); simpl; [by apply Hgoal|].
    unfold put_count. simpl. pose proof (wrap_in_range (entries lb + 1)) as Hw.
    destruct (Z.gtb_spec (Int64.wrap (entries lb + 1)) (MaxEntries lb)) as [Hgt|Hngt].
    + int_range. lia.
    + apply Hgoal; [exact HM | exact Hw].
Qed.

Lemma run_snoc (calls : list call) (c : call) (lb : Cache) :
  run (calls ++ [c]) lb = do_call (run calls lb) c.
Proof. unfold run. by rewrite foldl_app. Qed.

Lemma run_capacity_inv (maxEntries : Z) (calls : list call) (lb : Cache) :
  Forall (λ c, valid_orders (call_orders c)) calls →
  capacity_inv maxEntries lb → capacity_inv maxEntries (run calls lb).
Proof.
  intros Hv. revert lb. induction Hv as [|c calls Hc _ IH]; intros lb Hinv; [done|].
  simpl. apply IH. by apply put_capacity_inv.
Qed.

Lemma new_capacity_inv (maxEntries : Z) (lb0 : Cache) :
  New maxEntries = Some lb0 → capacity_inv maxEntries lb0.
Proof.
  unfold New. destruct (Z.leb_spec maxEntries 0); [done|]. intros [= <-].
  repeat split; simpl; try done; try lia; int_range; lia.
Qed.

Lemma capacity_inv_bound (maxEntries : Z) (lb : Cache) :
  capacity_inv maxEntries lb → entries lb <= MaxEntries lb ∧ MaxEntries lb = maxEntries.
Proof.
  intros (HM & Hpos & Hr & Hsmall). split; [|done].
  destruct (Z.lt_ge_cases maxEntries Int64.max_int) as [Hlt|Hge].
  - destruct (Hsmall Hlt). lia.
  - int_range. lia.
Qed.

Lemma run_consistent (calls : list call) (lb : Cache) :
  consistent lb → entries lb + Z.of_nat (List.length calls) <= Int64.max_int →
  consistent (run calls lb)
  ∧ entries (run calls lb) <= entries lb + Z.of_nat (List.length calls).
Proof.
  revert lb. induction calls as [|c calls IH]; intros lb Hc Hlen; simpl in *.
  - split; [done | lia].
  - destruct (put_consistent (call_orders c) (call_key c) (call_quantity c)
                (call_limit c) (call_now c) lb Hc) as (Hc' & _ & Hle); [right; lia|].
    destruct (IH (do_call lb c) Hc') as [Hc'' Hle'']; [unfold do_call; lia|].
    split; [done|]. unfold do_call in *. lia.
Qed.

Lemma new_consistent (maxEntries : Z) (lb0 : Cache) :
  New maxEntries = Some lb0 → consistent lb0 ∧ entries lb0 = 0.
Proof.
  unfold New. destruct (_ <=? _); [done|]. intros [= <-].
  unfold consistent. simpl. rewrite map_size_empty. int_range. lia.
Qed.

Lemma tiny_cache_reachable : reachable tiny_cache.
Proof. reachable_by_run. Qed.

Lemma single_cache_reachable : reachable single_cache.
Proof. reachable_by_run. Qed.

Lemma expired_cache_reachable : reachable expired_cache.
Proof.
  apply reachable_run; [int_range; lia|].
  apply Forall_fmap, Forall_forall. intros i Hi. apply elem_of_seqZ in Hi.
  apply call_at_valid; int_range; lia.
Qed.

(** [put] calls [gc] exactly when the key is new and the count exceeds
    [MaxEntries]. *)
Lemma put_count_gc (os : gc_orders) (now : Z) (lb : Cache) :
  MaxEntries (count_key lb) < entries (count_key lb) →
  put_count os now false lb = gc os now (count_key lb).
Proof.
  intros H. unfold put_count.
  by destruct (Z.gtb_spec (entries (count_key lb)) (MaxEntries (count_key lb))); [|lia].
Qed.

Lemma put_count_no_gc' (os : gc_orders) (now : Z) (existed : bool) (lb : Cache) :
  existed = true ∨ entries (count_key lb) <= MaxEntries (count_key lb) →
  put_count os now existed lb = if existed then lb else count_key lb.
Proof.
  intros H. unfold put_count. destruct existed; [done|].
  destruct H as [?|H]; [done|].
  by destruct (Z.gtb_spec (entries (count_key lb)) (MaxEntries (count_key lb))); [lia|].
Qed.

(** ** C3: the capacity bound *)

(** C3: after every prefix of a run of [put] on the cache of
    [New maxEntries], [entries <= MaxEntries = maxEntries]; and when a call
    for an absent key takes the count above [MaxEntries], that call is the
    [gc] of the counted state and returns with [entries <= MaxEntries]. *)
Theorem capacity_bound (maxEntries : Z) (lb0 : Cache) (calls : list call) :
  New maxEntries = Some lb0 →
  Forall (λ c, valid_orders (call_orders c)) calls →
  (∀ n, entries (run (take n calls) lb0) <= MaxEntries (run (take n calls) lb0)
        ∧ MaxEntries (run (take n calls) lb0) = maxEntries)
  ∧ (∀ n c, calls !! n = Some c →
       let lb := run (take n calls) lb0 in
       let over :=
         count_key (put_store (call_key c) (call_quantity c) (call_limit c)
                      (call_now c) lb).1 in
       cache lb !! call_key c = None →
       MaxEntries over < entries over →
       run (take (S n) calls) lb0 = gc (call_orders c) (call_now c) over
       ∧ entries (gc (call_orders c) (call_now c) over) <= MaxEntries lb).
Proof.
  intros Hnew Hv.
  assert (Hinv : ∀ n, capacity_inv maxEntries (run (take n calls) lb0)).
  { intros n. apply run_capacity_inv; [by apply Forall_take|].
    by apply new_capacity_inv. }
  split; [intros n; apply capacity_inv_bound, Hinv|].
  intros n c Hc lb over Hk Hover.
  assert (Hrun : run (take (S n) calls) lb0 = gc (call_orders c) (call_now c) over).
  { rewrite (take_S_r _ _ _ Hc), run_snoc. fold lb. unfold do_call.
    rewrite put_unfold. cbn [fst snd]. rewrite put_store_unfold at 1. cbn [fst snd].
    rewrite bool_decide_eq_false_2 by (rewrite Hk; by intros [? ?]).
    by apply put_count_gc. }
  split; [done|]. rewrite <- Hrun.
  destruct (capacity_inv_bound _ _ (Hinv (S n))) as [Hle HM].
  destruct (capacity_inv_bound _ _ (Hinv n)) as [_ HM']. fold lb in HM'.
  rewrite HM'. lia.
Qed.

Lemma capacity_bound_witness :
  New 2 = Some (new_cache 2) ∧
  Forall (λ c, valid_orders (call_orders c))
    [call_at 1 1000 100000000 0; call_at 2 2000 100000000 0;
     call_at 3 30000 100000000 0] ∧
  entries (run (take 3 [call_at 1 1000 100000000 0; call_at 2 2000 100000000 0;
                        call_at 3 30000 100000000 0]) (new_cache 2))
    <= MaxEntries (run (take 3 [call_at 1 1000 100000000 0; call_at 2 2000 100000000 0;
                                call_at 3 30000 100000000 0]) (new_cache 2)).
Proof.
  assert (Hnew : New 2 = Some (new_cache 2)) by reflexivity.
  assert (Hv : Forall (λ c, valid_orders (call_orders c))
    [call_at 1 1000 100000000 0; call_at 2 2000 100000000 0;
     call_at 3 30000 100000000 0])
    by (repeat (apply Forall_cons; split; [exact key_orders_valid|]);
        exact (Forall_nil_2 _)).
  split; [exact Hnew|]. split; [exact Hv|].
  exact (proj1 (proj1 (capacity_bound 2 (new_cache 2) _ Hnew Hv) 3%nat)).
Defined.

(** ** C4: the count equals the size of the table *)

(** C4: the cache [New] returns has [entries == |table|]; [scan], [gc] and
    [put] preserve it, [put] as long as counting one more entry stays within
    [int]; hence it holds after every run of at most [Int64.max_int] calls,
    whatever orders the scans iterate in, and after every run at all when
    [MaxEntries] is below the largest [int]. *)
Theorem entries_count :
  (∀ maxEntries lb0, New maxEntries = Some lb0 → consistent lb0)
  ∧ (∀ ord now count lb, consistent lb → consistent (scan ord now count lb).1)
  ∧ (∀ os now lb, consistent lb → consistent (gc os now lb))
  ∧ (∀ os k q l now lb,
       consistent lb → is_Some (cache lb !! k) ∨ entries lb < Int64.max_int →
       consistent (put os k q l now lb).1)
  ∧ (∀ maxEntries lb0 calls,
       New maxEntries = Some lb0 →
       Z.of_nat (List.length calls) <= Int64.max_int →
       consistent (run calls lb0))
  ∧ (∀ maxEntries lb0 calls,
       New maxEntries = Some lb0 → maxEntries < Int64.max_int →
       Forall (λ c, valid_orders (call_orders c)) calls →
       consistent (run calls lb0)).
Proof.
  split; [intros ? ? H; apply (new_consistent _ _ H)|].
  split; [intros ord now count lb Hc; apply (scan_spec ord now count lb Hc)|].
  split; [intros os now lb Hc; apply (gc_shrinks os now lb Hc)|].
  split; [intros os k q l now lb Hc Hroom;
          apply (put_consistent os k q l now lb Hc Hroom)|].
  split.
  - intros maxEntries lb0 calls Hnew Hlen.
    destruct (new_consistent _ _ Hnew) as [Hc H0].
    apply run_consistent; [done | lia].
  - intros maxEntries lb0 calls Hnew Hlt Hv.
    pose proof (run_capacity_inv maxEntries calls lb0 Hv
                  (new_capacity_inv _ _ Hnew)) as (_ & _ & _ & Hsmall).
    apply (Hsmall Hlt).
Qed.

Lemma entries_count_witness :
  New 2 = Some (new_cache 2) ∧
  Z.of_nat (List.length [call_at 1 1000 100000000 0; call_at 2 2000 100000000 0;
                         call_at 3 30000 100000000 0]) <= Int64.max_int ∧
  consistent (run [call_at 1 1000 100000000 0; call_at 2 2000 100000000 0;
                   call_at 3 30000 100000000 0] (new_cache 2)) ∧
  consistent tiny_cache ∧ entries tiny_cache < Int64.max_int ∧
  consistent (put key_orders 3 30000 100000000 0 tiny_cache).1 ∧
  consistent (gc key_orders 2500 tiny_cache) ∧
  consistent (scan key_order 2500 gcScanEntries tiny_cache).1.
Proof.
  assert (Hnew : New 2 = Some (new_cache 2)) by reflexivity.
  assert (Hlen : Z.of_nat (List.length [call_at 1 1000 100000000 0;
                   call_at 2 2000 100000000 0; call_at 3 30000 100000000 0])
                 <= Int64.max_int) by (vm_compute; discriminate).
  assert (Hlen2 : Z.of_nat (List.length [call_at 1 1000 100000000 0;
                    call_at 2 2000 100000000 0]) <= Int64.max_int)
    by (vm_compute; discriminate).
  assert (Hlt : entries tiny_cache < Int64.max_int) by (vm_compute; reflexivity).
  destruct entries_count as (_ & Hscan & Hgc & Hput & Hrun & _).
  pose proof (Hrun 2 (new_cache 2) _ Hnew Hlen2) as Htiny.
  split; [exact Hnew|]. split; [exact Hlen|].
  split; [exact (Hrun 2 (new_cache 2) _ Hnew Hlen)|].
  split; [exact Htiny|]. split; [exact Hlt|].
  split; [exact (Hput key_orders 3 30000 100000000 0 tiny_cache Htiny (or_intror Hlt))|].
  split; [exact (Hgc key_orders 2500 tiny_cache Htiny)|].
  exact (Hscan key_order 2500 gcScanEntries tiny_cache Htiny).
Defined.

(** ** C5: [left] after the first scan *)

(** C5, evaluated on the code: the call for the key 0 at time 10 on
    [expired_cache] enters [gc] with [left = 101]; the first scan removes the
    101 drained buckets, which meets the goal, but [left] becomes
    [101 + 101 = 202] instead of [101 - 101 = 0], so [gc] does not return
    after the scan and its forced deletion removes the one live bucket. *)
Theorem gc_left_after_scan :
  reachable expired_cache
  ∧ (put key_orders 0 5 10 10 expired_cache).1 = gc key_orders 10 expired_over
  ∧ gc_left0 expired_over = 101
  ∧ entries expired_over - entries (gc_phase1 key_orders 10 expired_over).1 = 101
  ∧ (gc_phase1 key_orders 10 expired_over).2 = 202
  ∧ cache (gc_phase1 key_orders 10 expired_over).1 = {[0 := Entry 5 10]}
  ∧ gc key_orders 10 expired_over ≠ (gc_phase1 key_orders 10 expired_over).1
  ∧ cache (gc key_orders 10 expired_over) = ∅.
Proof.
  split; [apply expired_cache_reachable|].
  split; [by vm_compute|]. split; [by vm_compute|]. split; [by vm_compute|].
  split; [by vm_compute|]. split; [by vm_compute|].
  split; [|by vm_compute].
  intros H. apply (f_equal entries) in H. by vm_compute in H.
Qed.

(** ** C6: what [gc] achieves *)

(** C6, as stated, fails when [MaxEntries] is below [gcMustRemoveEntries]:
    the third call of [TestMaxEntries] enters [gc] with 3 entries and
    [MaxEntries = 2]; [gc] empties the table, and 0 is not at most
    [2 - 100]. *)
Lemma gc_goal_negative :
  reachable tiny_cache
  ∧ (put key_orders 3 30000 100000000 0 tiny_cache).1 = gc key_orders 0 tiny_over
  ∧ consistent tiny_over
  ∧ MaxEntries tiny_over < entries tiny_over
  ∧ entries (gc key_orders 0 tiny_over) = 0
  ∧ ¬ (entries (gc key_orders 0 tiny_over)
       <= MaxEntries tiny_over - gcMustRemoveEntries).
Proof.
  split; [apply tiny_cache_reachable|].
  split; [by vm_compute|]. split; [by vm_compute|]. split; [by vm_compute|].
  split; [by vm_compute|].
  intros H. by vm_compute in H.
Qed.

(** C6 (amended): for every cache whose count matches its table and exceeds
    [MaxEntries], with [left] within the range of [int], [gc] returns a cache
    with at most [max 0 (MaxEntries - gcMustRemoveEntries)] entries, its
    count still matching its table; and [put] calls [gc] only for a new key
    whose counting takes [entries] above [MaxEntries]. *)
Theorem gc_reaches_goal (os : gc_orders) (now : Z) (lb : Cache) :
  (valid_orders os → consistent lb → 0 < MaxEntries lb < entries lb →
   entries lb - (MaxEntries lb - gcMustRemoveEntries) + 2 * gcScanEntries
     <= Int64.max_int →
   entries (gc os now lb) <= Z.max 0 (MaxEntries lb - gcMustRemoveEntries)
   ∧ consistent (gc os now lb)
   ∧ MaxEntries (gc os now lb) = MaxEntries lb)
  ∧ (MaxEntries (count_key lb) < entries (count_key lb) →
     put_count os now false lb = gc os now (count_key lb))
  ∧ (∀ existed,
       existed = true ∨ entries (count_key lb) <= MaxEntries (count_key lb) →
       put_count os now existed lb = if existed then lb else count_key lb).
Proof.
  split; [|split; [apply put_count_gc | intros existed; apply put_count_no_gc']].
  intros Hv Hc HM Hfit. split; [by apply gc_entries|].
  destruct (gc_shrinks os now lb Hc) as (HM' & _ & Hc' & _). done.
Qed.

Lemma gc_reaches_goal_witness :
  valid_orders key_orders ∧ consistent tiny_over ∧
  0 < MaxEntries tiny_over < entries tiny_over ∧
  entries tiny_over - (MaxEntries tiny_over - gcMustRemoveEntries) + 2 * gcScanEntries
    <= Int64.max_int ∧
  entries (gc key_orders 0 tiny_over)
    <= Z.max 0 (MaxEntries tiny_over - gcMustRemoveEntries) ∧
  put_count key_orders 0 false (put_store 3 30000 100000000 0 tiny_cache).1
    = gc key_orders 0 tiny_over.
Proof.
  assert (Hc : consistent tiny_over) by (vm_compute; split; [reflexivity | discriminate]).
  assert (HM : 0 < MaxEntries tiny_over < entries tiny_over)
    by (vm_compute; split; reflexivity).
  assert (Hfit : entries tiny_over - (MaxEntries tiny_over - gcMustRemoveEntries)
                 + 2 * gcScanEntries <= Int64.max_int) by (vm_compute; discriminate).
  assert (Hover : MaxEntries tiny_over < entries tiny_over) by apply HM.
  split; [exact key_orders_valid|]. split; [exact Hc|]. split; [exact HM|].
  split; [exact Hfit|]. split.
  - exact (proj1 (proj1 (gc_reaches_goal key_orders 0 tiny_over)
                    key_orders_valid Hc HM Hfit)).
  - exact (proj1 (proj2 (gc_reaches_goal key_orders 0
                    (put_store 3 30000 100000000 0 tiny_cache).1)) Hover).
Defined.

(** ** C10: a call can evict the key it admits *)

(** C10: [single_cache] is reachable and at capacity; a call for the absent
    key 2 is admitted and returns [(5, false, true)]; it enters [gc], whose
    two scans keep the new entry and leave [left] positive, and whose forced
    deletion removes it: the key is absent when [put] returns. *)
Theorem put_evicts_admitted_key :
  ∃ (lb : Cache) (os : gc_orders) (k q l now : Z) (lb' : Cache) (t : Z),
    reachable lb ∧ valid_orders os ∧ consistent lb
    ∧ entries lb = MaxEntries lb
    ∧ cache lb !! k = None
    ∧ put os k q l now lb = (lb', (t, false, true))
    ∧ cache lb' !! k = None
    ∧ (let over := count_key (put_store k q l now lb).1 in
       let lb1 := (gc_phase1 os now over).1 in
       let left1 := (gc_phase1 os now over).2 in
       let lb2 := (gc_phase2 os now lb1 left1).1 in
       let left2 := (gc_phase2 os now lb1 left1).2 in
       0 < left1 ∧ 0 < left2
       ∧ cache lb2 !! k = Some (Entry t now)
       ∧ lb' = gc_forced (ord_forced os (cache lb2)) left2 lb2).
Proof.
  exists single_cache, key_orders, 2, 5, 10, 0,
    (put key_orders 2 5 10 0 single_cache).1, 5.
  split; [apply single_cache_reachable|]. split; [apply key_orders_valid|].
  split; [by vm_compute|]. split; [by vm_compute|]. split; [by vm_compute|].
  split; [by vm_compute|]. split; [by vm_compute|].
  split; [by vm_compute|]. split; [by vm_compute|].
  split; by vm_compute.
Qed.

(** * Further properties of the code *)

(** ** [update] *)

Lemma update_update_same (e : entry) (now : Z) :
  update (update e now) now = update e now.
Proof.
  pose proof (update_tokens_range e now) as Hr.
  rewrite (update_unfold (update e now)). rewrite update_updated, Z.sub_diag.
  rewrite (wrap_id 0) by (int_range; lia). change (Z.max 0 0) with 0.
  rewrite Z.sub_0_r, wrap_id by (int_range; lia).
  rewrite (update_unfold e now) in *. simpl in *. f_equal. lia.
Qed.

(** X1: whatever the entry and the time, also where the subtractions wrap,
    [update] returns a token count in [0, MaxInt64] with [updated = now], and
    updating the result to the same time again changes nothing. *)
Theorem update_clamps (e : entry) (now : Z) :
  0 <= tokens (update e now) <= Int64.max_int
  ∧ updated (update e now) = now
  ∧ update (update e now) now = update e now.
Proof.
  split; [apply update_tokens_range|]. split; [done | apply update_update_same].
Qed.

Lemma update_tokens_math (e : entry) (now : Z) :
  Int64.in_range (now - updated e) →
  Int64.in_range (tokens e - Z.max 0 (now - updated e)) →
  tokens (update e now) = Z.max 0 (tokens e - Z.max 0 (now - updated e)).
Proof.
  intros Hs Ht. rewrite update_unfold. simpl.
  by rewrite (wrap_id (now - updated e)), (wrap_id (tokens e - _)).
Qed.

Lemma update_additive (e : entry) (t1 t2 : Z) :
  updated e <= t1 <= t2 →
  Int64.in_range (tokens e) →
  Int64.in_range (t2 - updated e) →
  Int64.in_range (tokens e - (t2 - updated e)) →
  update (update e t1) t2 = update e t2.
Proof.
  intros Ht HT Hs Hd.
  pose proof (update_tokens_range e t1) as Hr1.
  assert (H1 : tokens (update e t1) = Z.max 0 (tokens e - Z.max 0 (t1 - updated e)))
    by (apply update_tokens_math; int_range; lia).
  rewrite (update_unfold (update e t1) t2), (update_unfold e t2).
  rewrite update_updated, H1.
  rewrite (wrap_id (t2 - t1)), (wrap_id (t2 - updated e)) by (int_range; lia).
  rewrite (wrap_id (Z.max 0 _ - _)), (wrap_id (tokens e - _)) by (int_range; lia).
  f_equal. lia.
Qed.

(** X2: draining is additive in time: for [updated e <= t1 <= t2], a token
    count within [int64] and no wrap-around on the way, advancing to [t1]
    and then to [t2] gives what advancing to [t2] directly gives. *)
Theorem update_compose (e : entry) (t1 t2 : Z) :
  updated e <= t1 <= t2 →
  Int64.in_range (tokens e) →
  Int64.in_range (t2 - updated e) →
  Int64.in_range (tokens e - (t2 - updated e)) →
  update (update e t1) t2 = update e t2.
Proof. apply update_additive. Qed.

Lemma update_compose_witness :
  updated (Entry 1000 200) <= 500 <= 900 ∧
  Int64.in_range (tokens (Entry 1000 200)) ∧
  Int64.in_range (900 - updated (Entry 1000 200)) ∧
  Int64.in_range (tokens (Entry 1000 200) - (900 - updated (Entry 1000 200))) ∧
  update (update (Entry 1000 200) 500) 900 = update (Entry 1000 200) 900.
Proof.
  assert (H1 : updated (Entry 1000 200) <= 500 <= 900) by (simpl; lia).
  assert (H2 : Int64.in_range (tokens (Entry 1000 200))) by (int_range; simpl; lia).
  assert (H3 : Int64.in_range (900 - updated (Entry 1000 200)))
    by (int_range; simpl; lia).
  assert (H4 : Int64.in_range (tokens (Entry 1000 200) - (900 - updated (Entry 1000 200))))
    by (int_range; simpl; lia).
  split; [exact H1|]. split; [exact H2|]. split; [exact H3|]. split; [exact H4|].
  exact (update_compose (Entry 1000 200) 500 900 H1 H2 H3 H4).
Defined.

(** ** [New] and [put] *)

(** X3: [New] returns nil exactly for [maxEntries <= 0]; otherwise it returns
    an empty, unlocked cache, on which the first [put] of any key reports a
    new key, admits the quantity iff it is within the limit, runs no [gc]
    and leaves one counted bucket, holding the quantity if admitted and 0
    tokens if rejected. *)
Theorem new_first_put (maxEntries : Z) (os : gc_orders) (k q l now : Z) :
  (New maxEntries = None ↔ maxEntries <= 0)
  ∧ (0 < maxEntries → Int64.in_range q →
     ∃ lb0, New maxEntries = Some lb0
       ∧ cache lb0 = ∅ ∧ entries lb0 = 0 ∧ mu lb0 = false
       ∧ MaxEntries lb0 = maxEntries
       ∧ put os k q l now lb0
         = (MkCache maxEntries false {[k := Entry (if q <=? l then q else 0) now]} 1,
            (if q <=? l then q else 0, false, q <=? l))).
Proof.
  split.
  - unfold New. destruct (Z.leb_spec maxEntries 0); split; (done || lia).
  - intros Hpos Hq. exists (new_cache maxEntries).
    split; [by apply New_Some|]. repeat (split; [done|]).
    rewrite put_unfold, put_store_unfold. unfold decayed. simpl.
    rewrite lookup_empty. simpl. rewrite !Z.add_0_l, (wrap_id q Hq).
    rewrite (wrap_id 1) by (int_range; lia).
    destruct (Z.gtb_spec 1 maxEntries); [lia|].
    unfold count_key, set_entries, set_cache. simpl. rewrite insert_empty.
    rewrite !Z.add_0_l, (wrap_id 1) by (int_range; lia).
    by destruct (q <=? l).
Qed.

Lemma new_first_put_witness :
  0 < 10000 ∧ Int64.in_range 1000 ∧
  ∃ lb0, New 10000 = Some lb0
    ∧ put key_orders 1 1000 1000000000 7000 lb0
      = (MkCache 10000 false {[1 := Entry 1000 7000]} 1, (1000, false, true)).
Proof.
  assert (Hpos : 0 < 10000) by lia.
  assert (Hq : Int64.in_range 1000) by (int_range; lia).
  split; [exact Hpos|]. split; [exact Hq|].
  destruct (proj2 (new_first_put 10000 key_orders 1 1000 1000000000 7000) Hpos Hq)
    as (lb0 & Hnew & _ & _ & _ & _ & Hput).
  exists lb0. split; [exact Hnew | exact Hput].
Defined.



(** X5: a [put] that returns without having called [gc] leaves every other
    key's bucket, [MaxEntries] and the mutex as they were, and the count
    grows by one for a new key and stays for an existing one. *)
Theorem put_frame (os : gc_orders) (k q l now : Z) (lb lb' : Cache) (r : put_result) :
  put os k q l now lb = (lb', r) →
  res_existed r = true ∨ Int64.wrap (entries lb + 1) <= MaxEntries lb →
  (∀ k', k' ≠ k → cache lb' !! k' = cache lb !! k')
  ∧ entries lb' = (if res_existed r then entries lb else Int64.wrap (entries lb + 1))
  ∧ MaxEntries lb' = MaxEntries lb ∧ mu lb' = mu lb.
Proof.
  rewrite put_unfold, put_store_unfold. cbn [fst snd]. intros [= <- <-].
  unfold res_existed. cbn [fst snd]. intros Hno.
  rewrite put_count_no_gc' by done.
  split.
  - intros k' Hne. destruct (bool_decide _); simpl; by rewrite lookup_insert_ne.
  - by destruct (bool_decide _).
Qed.

Lemma put_frame_witness :
  put key_orders 2 2000 1000000000 0 tiny_cache
    = ((put key_orders 2 2000 1000000000 0 tiny_cache).1, (4000, true, true)) ∧
  res_existed (4000, true, true) = true ∧
  cache (put key_orders 2 2000 1000000000 0 tiny_cache).1 !! 1 = cache tiny_cache !! 1 ∧
  entries (put key_orders 2 2000 1000000000 0 tiny_cache).1 = entries tiny_cache.
Proof.
  assert (He : put key_orders 2 2000 1000000000 0 tiny_cache
    = ((put key_orders 2 2000 1000000000 0 tiny_cache).1, (4000, true, true))).
  { vm_compute. reflexivity. }
  assert (Hx : res_existed (4000, true, true) = true) by reflexivity.
  destruct (put_frame _ _ _ _ _ _ _ _ He (or_introl Hx)) as (Hk & Hn & _).
  split; [exact He|]. split; [exact Hx|].
  split; [apply Hk; discriminate | exact Hn].
Defined.

(** ** What [scan], [gc] and [put] leave alone *)

Lemma decays_or_keeps_refl (now : Z) (m : gmap Z entry) : decays_or_keeps now m m.
Proof. intros k e' H. exists e'. by split; [|left]. Qed.

Lemma decays_or_keeps_trans (now : Z) (m1 m2 m3 : gmap Z entry) :
  decays_or_keeps now m1 m2 → decays_or_keeps now m2 m3 → decays_or_keeps now m1 m3.
Proof.
  intros H12 H23 k e3 H3.
  destruct (H23 k e3 H3) as (e2 & H2 & He3).
  destruct (H12 k e2 H2) as (e1 & H1 & He2).
  exists e1. split; [done|].
  destruct He3 as [->| ->]; [done|]. right.
  destruct He2 as [->| ->]; [done|]. apply update_update_same.
Qed.

Lemma delete_key_keeps (now k : Z) (lb : Cache) :
  decays_or_keeps now (cache lb) (cache (delete_key k lb)).
Proof.
  intros k' e'. simpl. rewrite lookup_delete_Some. intros [_ H].
  exists e'. by split; [|left].
Qed.

Section Untouched.

Context (now : Z).

Lemma scan_visit_untouched (k : Z) (e : entry) (lb : Cache) :
  cache lb !! k = Some e →
  decays_or_keeps now (cache lb) (cache (scan_visit now k e lb))
  ∧ MaxEntries (scan_visit now k e lb) = MaxEntries lb
  ∧ mu (scan_visit now k e lb) = mu lb.
Proof.
  intros Hk. unfold scan_visit. destruct (_ <=? 0).
  - split; [apply delete_key_keeps | done].
  - split; [|done]. intros k' e'. simpl. rewrite lookup_insert_Some.
    intros [[<- <-]|[_ H]]; [exists e; by split; [|right] | exists e'; by split; [|left]].
Qed.

Lemma scan_range_untouched (count : Z) (ks : list Z) (n : Z) (lb : Cache) :
  decays_or_keeps now (cache lb) (cache (scan_range now count ks n lb))
  ∧ MaxEntries (scan_range now count ks n lb) = MaxEntries lb
  ∧ mu (scan_range now count ks n lb) = mu lb.
Proof.
  revert n lb. induction ks as [|k ks IH]; intros n lb; simpl.
  - split; [apply decays_or_keeps_refl | done].
  - destruct (cache lb !! k) as [e|] eqn:Hk; [|apply IH].
    destruct (scan_visit_untouched k e lb Hk) as (Hd & HM & Hm).
    destruct (_ >=? count); [done|].
    destruct (IH (Int64.wrap (n + 1)) (scan_visit now k e lb)) as (Hd' & HM' & Hm').
    split; [by eapply decays_or_keeps_trans|]. split; congruence.
Qed.

Lemma scan_untouched (ord : range_order) (count : Z) (lb : Cache) :
  decays_or_keeps now (cache lb) (cache (scan ord now count lb).1)
  ∧ MaxEntries (scan ord now count lb).1 = MaxEntries lb
  ∧ mu (scan ord now count lb).1 = mu lb.
Proof. unfold scan. cbn [fst]. apply scan_range_untouched. Qed.

Lemma gc_forced_untouched (ks : list Z) (left : Z) (lb : Cache) :
  decays_or_keeps now (cache lb) (cache (gc_forced ks left lb))
  ∧ MaxEntries (gc_forced ks left lb) = MaxEntries lb
  ∧ mu (gc_forced ks left lb) = mu lb.
Proof.
  revert left lb. induction ks as [|k ks IH]; intros left lb; simpl.
  - split; [apply decays_or_keeps_refl | done].
  - destruct (cache lb !! k) as [e|] eqn:Hk; [|apply IH].
    pose proof (delete_key_keeps now k lb) as Hd.
    destruct (_ <=? 0); [done|].
    destruct (IH (Int64.wrap (left - 1)) (delete_key k lb)) as (Hd' & HM' & Hm').
    split; [by eapply decays_or_keeps_trans|]. done.
Qed.

Lemma gc_untouched (os : gc_orders) (lb : Cache) :
  decays_or_keeps now (cache lb) (cache (gc os now lb))
  ∧ MaxEntries (gc os now lb) = MaxEntries lb
  ∧ mu (gc os now lb) = mu lb.
Proof.
  rewrite gc_unfold, !gc_phase1_unfold, !gc_phase2_unfold. cbn [fst snd].
  destruct (scan_untouched (ord_scan1 os) gcScanEntries lb) as (Hd1 & HM1 & Hm1).
  set (lb1 := (scan (ord_scan1 os) now gcScanEntries lb).1) in *.
  destruct (scan_untouched (ord_scan2 os) gcScanEntries lb1) as (Hd2 & HM2 & Hm2).
  set (lb2 := (scan (ord_scan2 os) now gcScanEntries lb1).1) in *.
  destruct (_ <=? 0); [done|].
  destruct (_ <=? 0).
  - split; [by eapply decays_or_keeps_trans|]. split; congruence.
  - match goal with |- context [gc_forced ?ks ?l lb2] =>
      destruct (gc_forced_untouched ks l lb2) as (Hd3 & HM3 & Hm3) end.
    split; [eapply decays_or_keeps_trans; [|exact Hd3];
            by eapply decays_or_keeps_trans|].
    split; congruence.
Qed.

End Untouched.



Lemma put_count_untouched (os : gc_orders) (now : Z) (existed : bool) (lb : Cache) :
  decays_or_keeps now (cache lb) (cache (put_count os now existed lb))
  ∧ MaxEntries (put_count os now existed lb) = MaxEntries lb
  ∧ mu (put_count os now existed lb) = mu lb.
Proof.
  unfold put_count. destruct existed; [split; [apply decays_or_keeps_refl | done]|].
  destruct (_ >? _); [|split; [apply decays_or_keeps_refl | done]].
  apply (gc_untouched now os (count_key lb)).
Qed.

Lemma put_mu (os : gc_orders) (k q l now : Z) (lb : Cache) :
  mu (put os k q l now lb).1 = mu lb.
Proof.
  destruct (put_shape os k q l now lb) as (e0 & _ & ->).
  apply (put_count_untouched os now _ (set_cache (<[k:=e0]> (cache lb)) lb)).
Qed.



(** ** The locking entry points *)

Section Mutex.

Context (b : bool).

Lemma scan_visit_set_mu (now k : Z) (e : entry) (lb : Cache) :
  scan_visit now k e (set_mu b lb) = set_mu b (scan_visit now k e lb).
Proof. unfold scan_visit. by destruct (_ <=? 0). Qed.

Lemma scan_range_set_mu (now count : Z) (ks : list Z) (n : Z) (lb : Cache) :
  scan_range now count ks n (set_mu b lb) = set_mu b (scan_range now count ks n lb).
Proof.
  revert n lb. induction ks as [|k ks IH]; intros n lb; [done|].
  simpl. destruct (cache lb !! k) as [e|]; [|apply IH].
  rewrite scan_visit_set_mu. destruct (_ >=? count); [done | apply IH].
Qed.

Lemma scan_set_mu (ord : range_order) (now count : Z) (lb : Cache) :
  scan ord now count (set_mu b lb)
  = (set_mu b (scan ord now count lb).1, (scan ord now count lb).2).
Proof. unfold scan. cbn [fst snd]. simpl. by rewrite scan_range_set_mu. Qed.

Lemma gc_forced_set_mu (ks : list Z) (left : Z) (lb : Cache) :
  gc_forced ks left (set_mu b lb) = set_mu b (gc_forced ks left lb).
Proof.
  revert left lb. induction ks as [|k ks IH]; intros left lb; [done|].
  simpl. destruct (cache lb !! k) as [e|]; [|apply IH].
  destruct (_ <=? 0); [done|]. apply (IH _ (delete_key k lb)).
Qed.

Lemma gc_set_mu (os : gc_orders) (now : Z) (lb : Cache) :
  gc os now (set_mu b lb) = set_mu b (gc os now lb).
Proof.
  rewrite !gc_unfold, !gc_phase1_unfold. cbn [fst snd].
  rewrite !scan_set_mu. cbn [fst snd].
  change (gc_left0 (set_mu b lb)) with (gc_left0 lb).
  destruct (_ <=? 0); [done|].
  rewrite !gc_phase2_unfold. cbn [fst snd]. rewrite !scan_set_mu. cbn [fst snd].
  destruct (_ <=? 0); [done|]. apply gc_forced_set_mu.
Qed.

Lemma put_set_mu (os : gc_orders) (k q l now : Z) (lb : Cache) :
  put os k q l now (set_mu b lb)
  = (set_mu b (put os k q l now lb).1, (put os k q l now lb).2).
Proof.
  rewrite !put_unfold, !put_store_unfold. cbn [fst snd].
  change (decayed (set_mu b lb) k now) with (decayed lb k now).
  change (cache (set_mu b lb)) with (cache lb).
  f_equal. unfold put_count.
  destruct (bool_decide _); [done|].
  match goal with |- context [count_key (set_cache ?m (set_mu b lb))] =>
    change (count_key (set_cache m (set_mu b lb)))
      with (set_mu b (count_key (set_cache m lb))) end.
  change (entries (set_mu b ?x)) with (entries x).
  change (MaxEntries (set_mu b ?x)) with (MaxEntries x).
  destruct (_ >? _); [apply gc_set_mu | done].
Qed.

End Mutex.

(** X8: on a cache whose mutex is free, [Put] and [PutString] return what
    [put] returns at the clock reading and leave the cache [put] leaves, with
    the mutex free again, so that the next call goes through; while the
    mutex is held no call returns. *)
Theorem Put_unlocked (os : gc_orders) (clock k quantity limit : Z) (ks : string)
    (lb : Cache) :
  (mu lb = false →
   Put os clock k quantity limit lb = Some (put os k quantity limit clock lb)
   ∧ PutString os clock ks quantity limit lb
     = Some (put os (key ks) quantity limit clock lb)
   ∧ mu (put os k quantity limit clock lb).1 = false)
  ∧ (mu lb = true →
     Put os clock k quantity limit lb = None
     ∧ PutString os clock ks quantity limit lb = None).
Proof.
  assert (Hput : ∀ k', mu lb = false →
            Put os clock k' quantity limit lb = Some (put os k' quantity limit clock lb)).
  { intros k' Hmu. unfold Put, Lock. rewrite Hmu. simpl. rewrite put_set_mu.
    pose proof (put_mu os k' quantity limit clock lb) as Hm.
    destruct (put os k' quantity limit clock lb) as [lb' r]. simpl in *.
    f_equal. f_equal. unfold Unlock, set_mu. simpl.
    destruct lb' as [M m c n]. simpl in *. by rewrite Hm, Hmu. }
  split.
  - intros Hmu. split; [by apply Hput|]. split; [by apply (Hput (key ks))|].
    pose proof (put_mu os k quantity limit clock lb) as Hm. congruence.
  - intros Hmu. unfold PutString, Put, Lock. by rewrite Hmu.
Qed.

Lemma Put_unlocked_witness :
  mu roomy_cache = false ∧
  Put key_orders 2500 3 30000 1000000000 roomy_cache
    = Some (put key_orders 3 30000 1000000000 2500 roomy_cache) ∧
  mu (set_mu true roomy_cache) = true ∧
  Put key_orders 2500 3 30000 1000000000 (set_mu true roomy_cache) = None.
Proof.
  assert (H0 : mu roomy_cache = false) by reflexivity.
  assert (H1 : mu (set_mu true roomy_cache) = true) by reflexivity.
  split; [exact H0|]. split.
  - exact (proj1 (proj1 (Put_unlocked key_orders 2500 3 30000 1000000000 "a"
                           roomy_cache) H0)).
  - split; [exact H1|].
    exact (proj1 (proj2 (Put_unlocked key_orders 2500 3 30000 1000000000 "a"
                           (set_mu true roomy_cache)) H1)).
Defined.

(** ** What a scan does to the table *)

Lemma scan_visit_lookup (now k0 : Z) (e : entry) (lb : Cache) (k : Z) :
  cache (scan_visit now k0 e lb) !! k
  = if decide (k = k0) then sweep now e else cache lb !! k.
Proof.
  unfold scan_visit, sweep. destruct (_ <=? 0); simpl; case_decide; subst.
  - apply lookup_delete_eq.
  - by apply lookup_delete_ne.
  - apply lookup_insert_eq.
  - by apply lookup_insert_ne.
Qed.

(** A scan that is allowed to visit every key it is given sweeps them all. *)
Lemma scan_range_sweeps (now count : Z) (ks : list Z) (n : Z) (lb : Cache) (k : Z) :
  NoDup ks → 0 <= n → n + Z.of_nat (List.length ks) <= count →
  count <= Int64.max_int →
  cache (scan_range now count ks n lb) !! k
  = if decide (k ∈ ks) then cache lb !! k ≫= sweep now else cache lb !! k.
Proof.
  revert n lb. induction ks as [|k0 ks IH]; intros n lb Hnd Hn Hlen Hcount.
  - simpl. destruct (decide (k ∈ [])) as [Hin|Hin]; [by apply elem_of_nil in Hin | done].
  - apply NoDup_cons in Hnd as [Hnotin Hnd]. simpl in Hlen |- *.
    destruct (cache lb !! k0) as [e|] eqn:Hk0.
    + rewrite (wrap_id (n + 1)) by (int_range; lia).
      destruct (Z.geb_spec (n + 1) count) as [Hge|Hlt].
      * assert (Hnil : ks = []).
        { destruct ks as [|k1 ks1]; [done|]. simpl in Hlen. lia. }
        subst ks.
        rewrite scan_visit_lookup.
        destruct (decide (k = k0)) as [->|Hne].
        -- rewrite decide_True by (left; done). by rewrite Hk0.
        -- rewrite decide_False; [done|]. by intros ?%list_elem_of_singleton.
      * rewrite IH by (done || lia). rewrite !scan_visit_lookup.
        destruct (decide (k = k0)) as [->|Hne].
        -- rewrite decide_False by done. rewrite decide_True by (left; done).
           by rewrite Hk0.
        -- destruct (decide (k ∈ ks)) as [Hin|Hnin].
           ++ rewrite decide_True by (by right). done.
           ++ rewrite decide_False; [done|]. rewrite elem_of_cons. tauto.
    + rewrite IH by (done || lia).
      destruct (decide (k = k0)) as [->|Hne].
      * rewrite decide_False by done. rewrite decide_True by (left; done).
        by rewrite Hk0.
      * destruct (decide (k ∈ ks)) as [Hin|Hnin].
        -- rewrite decide_True by (by right). done.
        -- rewrite decide_False; [done|]. rewrite elem_of_cons. tauto.
Qed.

Lemma valid_order_length (ord : range_order) (m : gmap Z entry) :
  valid_order ord → List.length (ord m) = size m.
Proof.
  intros Hv. destruct (Hv m) as [Hnd Hks].
  destruct (key_order_valid m) as [Hnd' Hks'].
  rewrite <- length_map_to_list, <- (length_fmap fst (map_to_list m)).
  apply Permutation_length, NoDup_Permutation; [done | done |].
  intros k. fold (key_order m). by rewrite Hks, Hks'.
Qed.

(** X9: a scan whose [count] is at least the size of the table sweeps the
    whole table, whatever the iteration order: the table it leaves holds
    exactly the buckets that have tokens left at [now], each decayed to
    [now], and every bucket that has drained is gone. *)
Theorem scan_sweeps_table (ord : range_order) (now count : Z) (lb : Cache) :
  valid_order ord →
  Z.of_nat (size (cache lb)) <= count <= Int64.max_int →
  cache (scan ord now count lb).1 = omap (sweep now) (cache lb)
  ∧ (∀ k e', cache (scan ord now count lb).1 !! k = Some e' →
       updated e' = now ∧ 0 < tokens e')
  ∧ (∀ k e, cache lb !! k = Some e → tokens (update e now) <= 0 →
       cache (scan ord now count lb).1 !! k = None).
Proof.
  intros Hv Hcount.
  assert (Heq : cache (scan ord now count lb).1 = omap (sweep now) (cache lb)).
  { apply map_eq. intros k. rewrite lookup_omap. unfold scan. cbn [fst].
    destruct (Hv (cache lb)) as [Hnd Hks].
    rewrite scan_range_sweeps;
      [| done | lia | rewrite (valid_order_length ord _ Hv); lia | lia].
    destruct (decide (k ∈ ord (cache lb))) as [Hin|Hin]; [done|].
    destruct (cache lb !! k) eqn:Hk; [|done].
    exfalso. apply Hin, Hks. eauto. }
  split; [done|]. rewrite Heq. split.
  - intros k e'. rewrite lookup_omap. destruct (cache lb !! k) as [e|]; [|done].
    simpl. unfold sweep. destruct (Z.leb_spec (tokens (update e now)) 0); [done|].
    intros [= <-]. done.
  - intros k e Hk Hle. rewrite lookup_omap, Hk. simpl. unfold sweep.
    by destruct (Z.leb_spec (tokens (update e now)) 0); [|lia].
Qed.

Lemma scan_sweeps_table_witness :
  valid_order key_order ∧
  Z.of_nat (size (cache roomy_cache)) <= gcScanEntries <= Int64.max_int ∧
  cache (scan key_order 2500 gcScanEntries roomy_cache).1
    = omap (sweep 2500) (cache roomy_cache) ∧
  cache (scan key_order 2500 gcScanEntries roomy_cache).1 = {[2 := Entry 2500 2500]}.
Proof.
  assert (Hc : Z.of_nat (size (cache roomy_cache)) <= gcScanEntries <= Int64.max_int)
    by (vm_compute; split; discriminate).
  split; [exact key_order_valid|]. split; [exact Hc|]. split.
  - exact (proj1 (scan_sweeps_table key_order 2500 gcScanEntries roomy_cache
                    key_order_valid Hc)).
  - vm_compute. reflexivity.
Defined.

(** X10: [scan] returns the change of the count, which is minus the number
    of buckets it removed; it removes at most [max 1 count] buckets (one
    bucket is visited even for [count <= 0]), never adds one, and keeps the
    count equal to the size of the table. *)
Theorem scan_returns (ord : range_order) (now count : Z) (lb : Cache) :
  consistent lb → count <= Int64.max_int →
  consistent (scan ord now count lb).1
  ∧ (scan ord now count lb).2
    = - (Z.of_nat (size (cache lb)) - Z.of_nat (size (cache (scan ord now count lb).1)))
  ∧ - Z.max 1 count <= (scan ord now count lb).2 <= 0.
Proof.
  intros Hc Hcount.
  destruct (scan_spec ord now count lb Hc) as ((_ & _ & Hc' & Hle) & Hr & Hb).
  specialize (Hb Hcount). split; [done|].
  destruct Hc as [Hsz _]. destruct Hc' as [Hsz' _]. rewrite Hr. lia.
Qed.

Lemma scan_returns_witness :
  consistent roomy_cache ∧ gcScanEntries <= Int64.max_int ∧
  (scan key_order 2500 gcScanEntries roomy_cache).2
    = - (Z.of_nat (size (cache roomy_cache))
         - Z.of_nat (size (cache (scan key_order 2500 gcScanEntries roomy_cache).1))) ∧
  (scan key_order 2500 gcScanEntries roomy_cache).2 = -1.
Proof.
  assert (Hc : consistent roomy_cache) by (vm_compute; split; [reflexivity | discriminate]).
  assert (Hn : gcScanEntries <= Int64.max_int) by (vm_compute; discriminate).
  split; [exact Hc|]. split; [exact Hn|]. split.
  - exact (proj1 (proj2 (scan_returns key_order 2500 gcScanEntries roomy_cache Hc Hn))).
  - vm_compute. reflexivity.
Defined.

(** ** A scan does not change what later calls see *)

Lemma sweep_transparent (now t : Z) (e : entry) :
  0 <= tokens e <= Int64.max_int → 0 <= updated e <= now →
  now <= t <= Int64.max_int →
  match sweep now e with
  | Some e1 => tokens (update e1 t)
  | None => 0
  end = tokens (update e t).
Proof.
  intros HT Hu Ht.
  assert (H1 : tokens (update e now) = Z.max 0 (tokens e - Z.max 0 (now - updated e)))
    by (apply update_tokens_math; int_range; lia).
  unfold sweep. destruct (Z.leb_spec (tokens (update e now)) 0) as [Hle|Hgt].
  - rewrite update_tokens_math by (int_range; lia). lia.
  - rewrite update_additive; (done || int_range; lia).
Qed.

Lemma settled_by_list (now : Z) (lb : Cache) :
  Forall (λ p, 0 <= tokens p.2 <= Int64.max_int ∧ 0 <= updated p.2 <= now)
    (map_to_list (cache lb)) →
  settled now lb.
Proof.
  intros H k e Hk. rewrite Forall_forall in H.
  apply (H (k, e)). by apply elem_of_map_to_list.
Qed.

Section Transparent.

Context (now t : Z) (Ht : now <= t <= Int64.max_int).

Lemma scan_visit_transparent (k0 : Z) (e : entry) (lb : Cache) :
  settled now lb → cache lb !! k0 = Some e →
  settled now (scan_visit now k0 e lb)
  ∧ ∀ k, decayed (scan_visit now k0 e lb) k t = decayed lb k t.
Proof using Ht.
  intros Hs Hk0. destruct (Hs k0 e Hk0) as [HT Hu]. split.
  - intros k e'. rewrite scan_visit_lookup.
    destruct (decide (k = k0)) as [->|Hne]; [|apply Hs].
    unfold sweep. destruct (_ <=? 0); [done|]. intros [= <-].
    split; [apply update_tokens_range | simpl; lia].
  - intros k. unfold decayed. rewrite scan_visit_lookup.
    destruct (decide (k = k0)) as [->|Hne]; [|done].
    rewrite Hk0. by apply sweep_transparent.
Qed.

Lemma scan_range_transparent (count : Z) (ks : list Z) (n : Z) (lb : Cache) :
  settled now lb →
  settled now (scan_range now count ks n lb)
  ∧ ∀ k, decayed (scan_range now count ks n lb) k t = decayed lb k t.
Proof using Ht.
  revert n lb. induction ks as [|k0 ks IH]; intros n lb Hs; simpl; [done|].
  destruct (cache lb !! k0) as [e|] eqn:Hk0; [|by apply IH].
  destruct (scan_visit_transparent k0 e lb Hs Hk0) as [Hs' Hd'].
  destruct (_ >=? count); [done|].
  destruct (IH (Int64.wrap (n + 1)) _ Hs') as [Hs'' Hd''].
  split; [done|]. intros k. by rewrite Hd''.
Qed.

End Transparent.

(** X11: on a table whose buckets hold token counts in [0, MaxInt64] and
    were updated at times in [0, now], a scan at [now] changes no later
    admission: for every key and every time [t >= now], the token count
    decayed to [t] is the same before and after the scan (a removed bucket
    had drained, and an absent key counts as 0), so a [put] at [t] returns
    the same result. *)
Theorem scan_transparent (ord : range_order) (now count t : Z) (lb : Cache) :
  settled now lb → now <= t <= Int64.max_int →
  settled now (scan ord now count lb).1
  ∧ (∀ k, decayed (scan ord now count lb).1 k t = decayed lb k t)
  ∧ (∀ k q l, res_ok (put_store k q l t (scan ord now count lb).1).2
              = res_ok (put_store k q l t lb).2
            ∧ res_tokens (put_store k q l t (scan ord now count lb).1).2
              = res_tokens (put_store k q l t lb).2).
Proof.
  intros Hs Ht. unfold scan. cbn [fst].
  destruct (scan_range_transparent now t Ht count (ord (cache lb)) 0 lb Hs) as [Hs' Hd].
  split; [done|]. split; [done|].
  intros k q l. rewrite !put_store_unfold. unfold res_ok, res_tokens. cbn [fst snd].
  by rewrite Hd.
Qed.

Lemma scan_transparent_witness :
  settled 2500 roomy_cache ∧ 2500 <= 4000 <= Int64.max_int ∧
  decayed (scan key_order 2500 gcScanEntries roomy_cache).1 1 4000
    = decayed roomy_cache 1 4000 ∧
  decayed (scan key_order 2500 gcScanEntries roomy_cache).1 2 4000
    = decayed roomy_cache 2 4000.
Proof.
  assert (Hs : settled 2500 roomy_cache).
  { apply settled_by_list.
    match goal with |- Forall _ ?l =>
      let l' := eval vm_compute in l in change l with l' end.
    repeat (apply Forall_cons; split; [vm_compute; repeat split; discriminate|]).
    by apply Forall_nil. }
  assert (Ht : 2500 <= 4000 <= Int64.max_int) by (int_range; lia).
  destruct (scan_transparent key_order 2500 gcScanEntries 4000 roomy_cache Hs Ht)
    as (_ & Hd & _).
  split; [exact Hs|]. split; [exact Ht|]. split; [exact (Hd 1) | exact (Hd 2)].
Defined.

(** ** [gc] away from the forced deletion *)

(** A scan keeps every bucket that has tokens left at [now]. *)
Lemma scan_range_keeps_live (now count : Z) (ks : list Z) (n : Z) (lb : Cache)
    (k : Z) (e : entry) :
  cache lb !! k = Some e → 0 < tokens (update e now) →
  ∃ e1, cache (scan_range now count ks n lb) !! k = Some e1
        ∧ 0 < tokens (update e1 now).
Proof.
  revert n lb e. induction ks as [|k0 ks IH]; intros n lb e Hk Hlive; simpl;
    [by eauto|].
  assert (Hstep : ∀ e0, cache lb !! k0 = Some e0 →
            ∃ e1, cache (scan_visit now k0 e0 lb) !! k = Some e1
                  ∧ 0 < tokens (update e1 now)).
  { intros e0 Hk0. rewrite scan_visit_lookup.
    destruct (decide (k = k0)) as [->|Hne]; [|by eauto].
    assert (e0 = e) as -> by congruence. unfold sweep.
    destruct (Z.leb_spec (tokens (update e now)) 0); [lia|].
    exists (update e now). split; [done|]. by rewrite update_update_same. }
  destruct (cache lb !! k0) as [e0|] eqn:Hk0.
  - destruct (Hstep e0 eq_refl) as (e1 & Hk1 & Hlive1).
    destruct (_ >=? count); [by eauto|].
    by eapply (IH _ (scan_visit now k0 e0 lb)).
  - by eapply (IH _ lb).
Qed.

(** X12: called on a cache that is at least [gcScanEntries] below its goal
    ([entries + gcScanEntries <= MaxEntries - gcMustRemoveEntries]), [gc] is
    one scan: it runs neither the second scan nor the forced deletion, and
    so removes only buckets that have drained. *)
Theorem gc_below_goal (os : gc_orders) (now : Z) (lb : Cache) :
  consistent lb → 0 < MaxEntries lb <= Int64.max_int →
  entries lb + gcScanEntries <= MaxEntries lb - gcMustRemoveEntries →
  gc os now lb = (scan (ord_scan1 os) now gcScanEntries lb).1
  ∧ (∀ k e, cache lb !! k = Some e → 0 < tokens (update e now) →
       is_Some (cache (gc os now lb) !! k)).
Proof.
  intros Hc HM Hroom.
  assert (Hgc : gc os now lb = (scan (ord_scan1 os) now gcScanEntries lb).1).
  { rewrite gc_unfold, gc_phase1_unfold. cbn [fst snd].
    pose proof (consistent_range lb Hc) as HE.
    assert (Hcount : gcScanEntries <= Int64.max_int)
      by (unfold gcScanEntries; int_range; lia).
    destruct (scan_spec (ord_scan1 os) now gcScanEntries lb Hc)
      as ((_ & _ & Hc1 & Hle) & Hr & Hb).
    specialize (Hb Hcount). pose proof (consistent_range _ Hc1) as HE1.
    rewrite Hr. unfold gc_left0. unfold gcScanEntries, gcMustRemoveEntries in *.
    rewrite (wrap_id (MaxEntries lb - 100)) by (int_range; lia).
    rewrite (wrap_id (entries lb - _)) by (int_range; lia).
    rewrite (wrap_id (entries lb - _ - _)) by (int_range; lia).
    by destruct (Z.leb_spec (entries lb - (MaxEntries lb - 100)
                  - (entries (scan (ord_scan1 os) now 1000 lb).1 - entries lb)) 0);
      [|lia]. }
  split; [done|]. rewrite Hgc. unfold scan. cbn [fst].
  intros k e Hk Hlive.
  destruct (scan_range_keeps_live now gcScanEntries (ord_scan1 os (cache lb)) 0
              lb k e Hk Hlive) as (e1 & -> & _). by eauto.
Qed.

Lemma gc_below_goal_witness :
  consistent roomy_cache ∧ 0 < MaxEntries roomy_cache <= Int64.max_int ∧
  entries roomy_cache + gcScanEntries <= MaxEntries roomy_cache - gcMustRemoveEntries ∧
  gc key_orders 2500 roomy_cache
    = (scan (ord_scan1 key_orders) 2500 gcScanEntries roomy_cache).1.
Proof.
  assert (Hc : consistent roomy_cache) by (vm_compute; split; [reflexivity | discriminate]).
  assert (HM : 0 < MaxEntries roomy_cache <= Int64.max_int)
    by (vm_compute; split; [reflexivity | discriminate]).
  assert (Hr : entries roomy_cache + gcScanEntries
               <= MaxEntries roomy_cache - gcMustRemoveEntries)
    by (vm_compute; discriminate).
  split; [exact Hc|]. split; [exact HM|]. split; [exact Hr|].
  exact (proj1 (gc_below_goal key_orders 2500 roomy_cache Hc HM Hr)).
Defined.

(** ** [gc] when no bucket has drained *)

Lemma scan_range_all_live (now count : Z) (ks : list Z) (n : Z) (lb : Cache) :
  all_live now lb →
  entries (scan_range now count ks n lb) = entries lb
  ∧ all_live now (scan_range now count ks n lb).
Proof.
  revert n lb. induction ks as [|k0 ks IH]; intros n lb Hl; simpl; [done|].
  destruct (cache lb !! k0) as [e|] eqn:Hk0; [|by apply IH].
  pose proof (Hl k0 e Hk0) as Hpos.
  assert (Hl1 : all_live now (scan_visit now k0 e lb)).
  { intros k e'. rewrite scan_visit_lookup.
    destruct (decide (k = k0)) as [->|Hne]; [|apply Hl].
    unfold sweep. destruct (Z.leb_spec (tokens (update e now)) 0); [lia|].
    intros [= <-]. by rewrite update_update_same. }
  assert (He1 : entries (scan_visit now k0 e lb) = entries lb).
  { unfold scan_visit. by destruct (Z.leb_spec (tokens (update e now)) 0); [lia|]. }
  destruct (_ >=? count); [done|].
  destruct (IH (Int64.wrap (n + 1)) _ Hl1) as [-> Hl2]. done.
Qed.

(** X13: when the count matches the table and exceeds [MaxEntries] and no
    bucket has drained by [now], the two scans of [gc] remove nothing and
    its forced deletion removes live buckets until exactly
    [max 0 (MaxEntries - gcMustRemoveEntries)] entries are left. *)
Theorem gc_hits_goal (os : gc_orders) (now : Z) (lb : Cache) :
  valid_order (ord_forced os) → consistent lb →
  0 < MaxEntries lb < entries lb →
  entries lb - (MaxEntries lb - gcMustRemoveEntries) <= Int64.max_int →
  all_live now lb →
  entries (gc_phase2 os now (gc_phase1 os now lb).1 (gc_phase1 os now lb).2).1
    = entries lb
  ∧ entries (gc os now lb) = Z.max 0 (MaxEntries lb - gcMustRemoveEntries).
Proof.
  intros Hv Hc HM Hfit Hl.
  rewrite gc_unfold, !gc_phase1_unfold, !gc_phase2_unfold. cbn [fst snd].
  pose proof (consistent_range lb Hc) as HE.
  destruct (scan_spec (ord_scan1 os) now gcScanEntries lb Hc) as ((HM1 & _ & Hc1 & _) & _).
  assert (H1 : entries (scan (ord_scan1 os) now gcScanEntries lb).1 = entries lb
               ∧ all_live now (scan (ord_scan1 os) now gcScanEntries lb).1)
    by (unfold scan; cbn [fst]; by apply scan_range_all_live).
  destruct H1 as [He1 Hl1].
  assert (Hr1 : (scan (ord_scan1 os) now gcScanEntries lb).2 = 0).
  { unfold scan in *. cbn [fst snd] in *. rewrite He1, Z.sub_diag.
    apply wrap_id. int_range. lia. }
  set (lb1 := (scan (ord_scan1 os) now gcScanEntries lb).1) in *.
  destruct (scan_spec (ord_scan2 os) now gcScanEntries lb1 Hc1) as ((HM2 & _ & Hc2 & _) & _).
  assert (H2 : entries (scan (ord_scan2 os) now gcScanEntries lb1).1 = entries lb1
               ∧ all_live now (scan (ord_scan2 os) now gcScanEntries lb1).1)
    by (unfold scan; cbn [fst]; by apply scan_range_all_live).
  destruct H2 as [He2 Hl2].
  assert (Hr2 : (scan (ord_scan2 os) now gcScanEntries lb1).2 = 0).
  { unfold scan in *. cbn [fst snd] in *. rewrite He2, Z.sub_diag.
    apply wrap_id. int_range. lia. }
  set (lb2 := (scan (ord_scan2 os) now gcScanEntries lb1).1) in *.
  split; [congruence|].
  rewrite Hr1, Hr2. unfold gc_left0. unfold gcMustRemoveEntries in *.
  rewrite (wrap_id (MaxEntries lb - 100)) by (int_range; lia).
  rewrite (wrap_id (entries lb - _)) by (int_range; lia).
  rewrite !Z.sub_0_r.
  rewrite !(wrap_id (entries lb - _)) by (int_range; lia).
  destruct (Z.leb_spec (entries lb - (MaxEntries lb - 100)) 0); [lia|].
  destruct (Hv (cache lb2)) as [Hnd Hks].
  rewrite gc_forced_entries by (done || int_range; lia). lia.
Qed.

Lemma gc_hits_goal_witness :
  valid_order (ord_forced key_orders) ∧ consistent tiny_over ∧
  0 < MaxEntries tiny_over < entries tiny_over ∧
  entries tiny_over - (MaxEntries tiny_over - gcMustRemoveEntries) <= Int64.max_int ∧
  all_live 0 tiny_over ∧
  entries (gc key_orders 0 tiny_over)
    = Z.max 0 (MaxEntries tiny_over - gcMustRemoveEntries).
Proof.
  assert (Hc : consistent tiny_over) by (vm_compute; split; [reflexivity | discriminate]).
  assert (HM : 0 < MaxEntries tiny_over < entries tiny_over)
    by (vm_compute; split; reflexivity).
  assert (Hfit : entries tiny_over - (MaxEntries tiny_over - gcMustRemoveEntries)
                 <= Int64.max_int) by (vm_compute; discriminate).
  assert (Hl : all_live 0 tiny_over).
  { intros k e Hk. apply elem_of_map_to_list in Hk. revert Hk.
    match goal with |- _ ∈ ?l → _ =>
      let l' := eval vm_compute in l in change l with l' end.
    intros Hk. repeat (apply elem_of_cons in Hk as [[= -> ->]|Hk]; [by vm_compute|]).
    by apply elem_of_nil in Hk. }
  split; [exact key_order_valid|]. split; [exact Hc|]. split; [exact HM|].
  split; [exact Hfit|]. split; [exact Hl|].
  exact (proj2 (gc_hits_goal key_orders 0 tiny_over key_order_valid Hc HM Hfit Hl)).
Defined.

(** ** The key hasher *)

Lemma mul_prime64_inj (x y : Z) :
  0 <= x < 2 ^ 64 → 0 <= y < 2 ^ 64 →
  (x * prime64) mod 2 ^ 64 = (y * prime64) mod 2 ^ 64 → x = y.
Proof.
  intros Hx Hy Heq.
  assert (Hinv : ∀ z, 0 <= z < 2 ^ 64 →
            ((z * prime64) mod 2 ^ 64 * 14886173955864302971) mod 2 ^ 64 = z).
  { intros z Hz. rewrite Z.mul_mod_idemp_l by lia.
    rewrite <- Z.mul_assoc, <- Z.mul_mod_idemp_r by lia.
    replace ((prime64 * 14886173955864302971) mod 2 ^ 64) with 1 by reflexivity.
    rewrite Z.mul_1_r. apply Z.mod_small. lia. }
  rewrite <- (Hinv x Hx), <- (Hinv y Hy). by rewrite Heq.
Qed.

Lemma lxor_uint64 (a b : Z) :
  0 <= a < 2 ^ 64 → 0 <= b < 2 ^ 64 → 0 <= Z.lxor a b < 2 ^ 64.
Proof.
  intros Ha Hb.
  assert (Hnn : 0 <= Z.lxor a b) by (apply Z.lxor_nonneg; lia).
  split; [done|].
  destruct (Z.eq_dec (Z.lxor a b) 0) as [->|Hne]; [lia|].
  apply Z.log2_lt_pow2; [lia|].
  assert (Hlog : ∀ z, 0 <= z < 2 ^ 64 → Z.log2 z < 64).
  { intros z Hz. destruct (Z.eq_dec z 0) as [->|Hz0]; [done|].
    apply Z.log2_lt_pow2; lia. }
  pose proof (Z.log2_lxor a b (proj1 Ha) (proj1 Hb)).
  pose proof (Hlog a Ha). pose proof (Hlog b Hb). lia.
Qed.

Lemma lxor_cancel_l (h c1 c2 : Z) : Z.lxor h c1 = Z.lxor h c2 → c1 = c2.
Proof.
  intros H. apply (f_equal (Z.lxor h)) in H.
  by rewrite <- !Z.lxor_assoc, Z.lxor_nilpotent, !Z.lxor_0_l in H.
Qed.

Lemma lxor_cancel_r (h1 h2 c : Z) : Z.lxor h1 c = Z.lxor h2 c → h1 = h2.
Proof. rewrite !(Z.lxor_comm _ c). apply lxor_cancel_l. Qed.

Lemma fnv64a_write_inj (data : list Z) (h1 h2 : Z) :
  0 <= h1 < 2 ^ 64 → 0 <= h2 < 2 ^ 64 →
  Forall (λ c, 0 <= c < 2 ^ 64) data →
  fnv64a_write h1 data = fnv64a_write h2 data → h1 = h2.
Proof.
  intros H1 H2 Hd. revert h1 h2 H1 H2.
  induction Hd as [|c data Hc _ IH]; intros h1 h2 H1 H2; [done|].
  simpl. intros Heq.
  apply IH in Heq; try (unfold Uint64.wrap; apply Z.mod_pos_bound; lia).
  apply mul_prime64_inj in Heq; try by apply lxor_uint64.
  by apply lxor_cancel_r in Heq.
Qed.

Lemma bytes_of_string_app (s1 s2 : string) :
  bytes_of_string (String.append s1 s2) = bytes_of_string s1 ++ bytes_of_string s2.
Proof.
  unfold bytes_of_string. induction s1 as [|a s1 IH]; [done|].
  simpl. f_equal. exact IH.
Qed.

Lemma bytes_of_string_range (s : string) :
  Forall (λ c, 0 <= c < 2 ^ 64) (bytes_of_string s).
Proof.
  unfold bytes_of_string. apply Forall_fmap, Forall_forall. intros a _. simpl.
  pose proof (N_ascii_bounded a). lia.
Qed.

(** X14: hashing is incremental: the key of a concatenation is the hash of
    the second part continued from the key of the first. Two strings that
    differ in exactly one byte never get the same key: each FNV-1a step is
    injective in the byte and in the running hash. *)
Theorem key_one_byte (p r s1 s2 : string) (a b : ascii) :
  key (String.append s1 s2) = fnv64a_write (key s1) (bytes_of_string s2)
  ∧ (a ≠ b →
     key (String.append p (String a r)) ≠ key (String.append p (String b r))).
Proof.
  split.
  - unfold key, fnv64a_write. by rewrite bytes_of_string_app, fold_left_app.
  - intros Hne Heq. apply Hne.
    assert (Hp : 0 <= key p < 2 ^ 64)
      by (apply fnv64a_write_range; unfold offset64; lia).
    unfold key in Heq. rewrite !bytes_of_string_app in Heq.
    unfold fnv64a_write in Heq. rewrite !fold_left_app in Heq.
    fold (fnv64a_write offset64 (bytes_of_string p)) in Heq. fold (key p) in Heq.
    change (bytes_of_string (String a r))
      with (Z.of_N (N_of_ascii a) :: bytes_of_string r) in Heq.
    change (bytes_of_string (String b r))
      with (Z.of_N (N_of_ascii b) :: bytes_of_string r) in Heq.
    simpl in Heq.
    pose proof (N_ascii_bounded a) as Ha. pose proof (N_ascii_bounded b) as Hb.
    apply (fnv64a_write_inj (bytes_of_string r)) in Heq;
      [| unfold Uint64.wrap; apply Z.mod_pos_bound; lia
       | unfold Uint64.wrap; apply Z.mod_pos_bound; lia
       | apply bytes_of_string_range].
    apply mul_prime64_inj in Heq; try (apply lxor_uint64; lia).
    apply lxor_cancel_l in Heq.
    rewrite <- (ascii_N_embedding a), <- (ascii_N_embedding b). f_equal. lia.
Qed.

Lemma key_one_byte_witness :
  "a"%char ≠ "b"%char ∧
  key (String.append "user-" (String "a" "-42"))
    ≠ key (String.append "user-" (String "b" "-42")).
Proof.
  assert (Hne : "a"%char ≠ "b"%char) by discriminate.
  split; [exact Hne|].
  exact (proj2 (key_one_byte "user-" "-42" "" "" "a" "b") Hne).
Defined.

(** ** How many entries [gc] leaves *)

(** X15: when the count matches the table and exceeds [MaxEntries], [gc]
    leaves [max 0 (MaxEntries - gcMustRemoveEntries - 2 * removed)] entries,
    [removed] being the number of drained buckets its two scans removed:
    since the scans add what they removed to [left], the forced deletion
    removes one live bucket more for every drained bucket found. *)
Theorem gc_entries_exact (os : gc_orders) (now : Z) (lb : Cache) :
  valid_orders os → consistent lb →
  0 < MaxEntries lb < entries lb →
  entries lb - (MaxEntries lb - gcMustRemoveEntries) + 2 * gcScanEntries
    <= Int64.max_int →
  entries (gc os now lb)
  = Z.max 0 (MaxEntries lb - gcMustRemoveEntries
             - 2 * (entries lb
                    - entries (gc_phase2 os now (gc_phase1 os now lb).1
                                 (gc_phase1 os now lb).2).1)).
Proof.
  intros (Hv1 & Hv2 & Hv3) Hc HM Hfit.
  rewrite gc_unfold, !gc_phase1_unfold, !gc_phase2_unfold. cbn [fst snd].
  pose proof (consistent_range lb Hc) as HE.
  assert (Hcount : gcScanEntries <= Int64.max_int)
    by (unfold gcScanEntries; int_range; lia).
  destruct (scan_spec (ord_scan1 os) now gcScanEntries lb Hc) as (Hs1 & Hr1 & Hb1).
  specialize (Hb1 Hcount).
  set (lb1 := (scan (ord_scan1 os) now gcScanEntries lb).1) in *.
  assert (Hc1 : consistent lb1) by apply Hs1.
  pose proof (consistent_range lb1 Hc1) as HE1.
  destruct (scan_spec (ord_scan2 os) now gcScanEntries lb1 Hc1) as (Hs2 & Hr2 & Hb2).
  specialize (Hb2 Hcount).
  set (lb2 := (scan (ord_scan2 os) now gcScanEntries lb1).1) in *.
  assert (Hc2 : consistent lb2) by apply Hs2.
  pose proof (consistent_range lb2 Hc2) as HE2.
  destruct Hs1 as (HM1 & _ & _ & Hle1). destruct Hs2 as (HM2 & _ & _ & Hle2).
  rewrite Hr1, Hr2. unfold gc_left0.
  unfold gcScanEntries, gcMustRemoveEntries in *.
  rewrite (wrap_id (MaxEntries lb - 100)) by (int_range; lia).
  rewrite (wrap_id (entries lb - _)) by (int_range; lia).
  rewrite (wrap_id (entries lb - _ - _)) by (int_range; lia).
  rewrite (wrap_id (entries lb - _ - _ - _)) by (int_range; lia).
  destruct (Z.leb_spec (entries lb - (MaxEntries lb - 100) - (entries lb1 - entries lb)) 0);
    [lia|].
  destruct (Z.leb_spec (entries lb - (MaxEntries lb - 100) - (entries lb1 - entries lb)
                        - (entries lb2 - entries lb1)) 0); [lia|].
  destruct (Hv3 (cache lb2)) as [Hnd Hks].
  rewrite gc_forced_entries by (done || int_range; lia). lia.
Qed.

Lemma gc_entries_exact_witness :
  valid_orders key_orders ∧ consistent expired_over ∧
  0 < MaxEntries expired_over < entries expired_over ∧
  entries expired_over - (MaxEntries expired_over - gcMustRemoveEntries)
    + 2 * gcScanEntries <= Int64.max_int ∧
  entries (gc key_orders 10 expired_over)
  = Z.max 0 (MaxEntries expired_over - gcMustRemoveEntries
             - 2 * (entries expired_over
                    - entries (gc_phase2 key_orders 10
                                 (gc_phase1 key_orders 10 expired_over).1
                                 (gc_phase1 key_orders 10 expired_over).2).1)).
Proof.
  assert (Hc : consistent expired_over)
    by (vm_compute; split; [reflexivity | discriminate]).
  assert (HM : 0 < MaxEntries expired_over < entries expired_over)
    by (vm_compute; split; reflexivity).
  assert (Hfit : entries expired_over - (MaxEntries expired_over - gcMustRemoveEntries)
                 + 2 * gcScanEntries <= Int64.max_int) by (vm_compute; discriminate).
  split; [exact key_orders_valid|]. split; [exact Hc|]. split; [exact HM|].
  split; [exact Hfit|].
  exact (gc_entries_exact key_orders 10 expired_over key_orders_valid Hc HM Hfit).
Defined.

(** X16: on a cache with [MaxEntries <= gcMustRemoveEntries] that is full, a
    [put] of a new key returns with an empty table and a count of 0,
    whatever the iteration order: [gc] removes every bucket, the one just
    written included. *)
Theorem put_empties_small_cache (os : gc_orders) (k q l now : Z) (lb : Cache) :
  valid_orders os → consistent lb →
  0 < MaxEntries lb <= gcMustRemoveEntries → entries lb = MaxEntries lb →
  cache lb !! k = None →
  cache (put os k q l now lb).1 = ∅
  ∧ entries (put os k q l now lb).1 = 0
  ∧ res_existed (put os k q l now lb).2 = false.
Proof.
  intros Hv Hc HM Hfull Hk. unfold gcMustRemoveEntries in *.
  assert (Hex : res_existed (put os k q l now lb).2 = false).
  { rewrite put_unfold, put_store_unfold. unfold res_existed. cbn [fst snd].
    apply bool_decide_eq_false_2. rewrite Hk. by intros [? ?]. }
  destruct (put_shape os k q l now lb) as (e & _ & ->).
  rewrite bool_decide_eq_false_2 by (rewrite Hk; by intros [? ?]).
  destruct (count_key_consistent k e lb Hc Hk) as [Hc' He']; [int_range; lia|].
  rewrite put_count_gc by (rewrite He'; simpl; lia).
  pose proof (gc_entries os now _ Hv Hc') as Hle.
  destruct (gc_shrinks os now _ Hc') as (_ & _ & Hc'' & _).
  pose proof (consistent_range _ Hc'') as Hr.
  assert (H0 : entries (gc os now (count_key (set_cache (<[k:=e]> (cache lb)) lb))) = 0).
  { rewrite He' in Hle. simpl in Hle.
    unfold gcMustRemoveEntries, gcScanEntries in Hle.
    assert (Hfit : entries lb + 1 - (MaxEntries lb - 100) + 2 * 1000 <= Int64.max_int)
      by (int_range; lia).
    specialize (Hle ltac:(lia) Hfit). lia. }
  split; [|done]. apply map_size_empty_inv.
  destruct Hc'' as [Hsz _]. lia.
Qed.

Lemma put_empties_small_cache_witness :
  valid_orders key_orders ∧ consistent tiny_cache ∧
  0 < MaxEntries tiny_cache <= gcMustRemoveEntries ∧
  entries tiny_cache = MaxEntries tiny_cache ∧
  cache tiny_cache !! 3 = None ∧
  cache (put key_orders 3 30000 100000000 0 tiny_cache).1 = ∅.
Proof.
  assert (Hc : consistent tiny_cache) by (vm_compute; split; [reflexivity | discriminate]).
  assert (HM : 0 < MaxEntries tiny_cache <= gcMustRemoveEntries)
    by (vm_compute; split; [reflexivity | discriminate]).
  assert (Hf : entries tiny_cache = MaxEntries tiny_cache) by reflexivity.
  assert (Hk : cache tiny_cache !! 3 = None) by reflexivity.
  split; [exact key_orders_valid|]. split; [exact Hc|]. split; [exact HM|].
  split; [exact Hf|]. split; [exact Hk|].
  exact (proj1 (put_empties_small_cache key_orders 3 30000 100000000 0 tiny_cache
                  key_orders_valid Hc HM Hf Hk)).
Defined.
